(** * piecewise: population bookkeeping and capacity-enforcing deletion

    A shallow embedding of [piecewise/dtype/classifier_set/population.py]
    and [piecewise/algorithm/component/deletion.py].

    Classifiers are Python objects: they have an identity, and their
    [numerosity] attribute is mutated in place by the population.  The
    embedding therefore keeps a store of objects ([heap]) addressed by
    object identity, and the population holds references into it.
    Exceptions do not roll anything back in Python, so a computation
    returns either a value or an exception, in both cases together with
    the state reached.

    The scalar attributes of a classifier (fitness, experience, action-set
    size) are Python or numpy floats.  Their arithmetic is an interface
    ([Arith]): what is proved about the deletion policy holds whatever the
    arithmetic does, and the code is run on IEEE binary64 ([python_float]),
    the arithmetic of a Python [float]. *)

From Stdlib Require Import ZArith QArith Lia Lqa Floats.
From stdpp Require Import base functions gmap list strings.

Local Open Scope Z_scope.

(** ** Data model *)

(** Object identity of a classifier. *)
Definition oid := nat.

(** Modelled from the spec: the [Classifier] class is not among the
    sources.  The spec: a classifier holds a [rule], "opaque to this
    subsystem except for equality", a mutable [numerosity] and the scalars
    [fitness], [experience] and [action_set_size].  [numerosity] is a
    Python [int]; the other scalars have a type [F] of their own. *)
Record Classifier (Rule F : Type) := mkClassifier {
  rule : Rule;
  numerosity : Z;
  fitness : F;
  experience : F;
  action_set_size : F
}.
Arguments mkClassifier {Rule F} _ _ _ _ _.
Arguments rule {Rule F} _.
Arguments numerosity {Rule F} _.
Arguments fitness {Rule F} _.
Arguments experience {Rule F} _.
Arguments action_set_size {Rule F} _.

Definition with_numerosity {Rule F} (c : Classifier Rule F) (n : Z)
    : Classifier Rule F :=
  mkClassifier (rule c) n (fitness c) (experience c) (action_set_size c).

Inductive exn :=
| InvalidSizeError
| MemberNotFoundError
| AssertionError
| ValueError
| TypeError
| ZeroDivisionError
| OverflowError.

(** ** Scalars and their arithmetic *)

(** What the deletion policy asks of the scalars: an [int] operand of a
    mixed operation is converted first ([of_int], which may raise), sums
    start from the [int] 0 ([f_zero]), [+] and [*] return a scalar, [/]
    may raise, and [<] is a test. *)
Class Arith (F : Type) := {
  of_int : Z -> exn + F;
  f_zero : F;
  f_add : F -> F -> F;
  f_mul : F -> F -> F;
  f_div : F -> F -> exn + F;
  f_ltb : F -> F -> bool
}.

(** The binary64 float nearest to an integer (ties to even), infinite
    beyond the range. *)
Definition float_of_Z (z : Z) : float :=
  SF2Prim (binary_normalize prec emax z 0 false).

(** A Python [float]: IEEE binary64.  [float(int)] raises [OverflowError]
    beyond the range, [+], [*] and [<] are those of the hardware, and [/]
    raises [ZeroDivisionError] on a zero divisor. *)
#[global] Instance python_float : Arith float := {|
  of_int z :=
    let f := float_of_Z z in
    if PrimFloat.is_infinity f then inl OverflowError else inr f;
  f_zero := 0%float;
  f_add := PrimFloat.add;
  f_mul := PrimFloat.mul;
  f_div x y :=
    if PrimFloat.eqb y 0%float then inl ZeroDivisionError
    else inr (PrimFloat.div x y);
  f_ltb := PrimFloat.ltb
|}.

(** [x < y] on rationals, as a test. *)
Definition Qltb (x y : Q) : bool := negb (Qle_bool y x).

(** Arithmetic without rounding, over the rationals. *)
#[global] Instance exact_rational : Arith Q := {|
  of_int z := inr (inject_Z z);
  f_zero := 0%Q;
  f_add := Qplus;
  f_mul := Qmult;
  f_div x y := if Qeq_bool y 0 then inl ZeroDivisionError else inr (x / y)%Q;
  f_ltb := Qltb
|}.

(** Python's [sum(xs)]: starts from 0 and adds from the left. *)
Definition py_sum {F} `{!Arith F} (xs : list F) : F := fold_left f_add xs f_zero.

(** The scanning loop of the roulette wheel over [zip(population, votes)];
    [None] when the loop runs off the end, where the Python function
    returns [None]. *)
Fixpoint roulette_scan {F} `{!Arith F} (cvs : list (oid * F))
    (vote_sum choice_point : F) : option oid :=
  match cvs with
  | [] => None
  | (classifier, vote) :: cvs' =>
      let vote_sum := f_add vote_sum vote in
      if f_ltb choice_point vote_sum
      then Some classifier
      else roulette_scan cvs' vote_sum choice_point
  end.

(** The fields of a [Population] object: [_num_micros], [_max_micros],
    [_operation_recorder] and, from the base class [ClassifierSetBase],
    which is not among the sources, [_members]: a Python list of
    classifier objects, iterated in insertion order. *)
Record Population := mkPopulation {
  members : list oid;
  num_micros : Z;
  max_micros : Z;
  operations_record : gmap string Z
}.

(** The values [Population.__init__] is modelled on: Python ints, finite
    floats (as exact rationals), bools and [None]. *)
Inductive PyVal :=
| PyInt (z : Z)
| PyFloat (q : Q)
| PyBool (b : bool)
| PyNone.

(** Python's [int(x)]: identity on ints, truncation toward zero on floats,
    0/1 on bools, [TypeError] on [None]. *)
Definition py_int (v : PyVal) : exn + Z :=
  match v with
  | PyInt z => inr z
  | PyFloat q => inr (Z.quot (Qnum q) (Z.pos (Qden q)))
  | PyBool b => inr (if b then 1 else 0)
  | PyNone => inl TypeError
  end.

(** Whether a value is a positive integer, in the words of the spec. *)
Definition is_positive_integer (v : PyVal) : Prop :=
  match v with
  | PyInt z => 0 < z
  | _ => False
  end.

(** [list.remove(x)]: drops the first occurrence, [None] when there is none
    (Python raises [ValueError]).  Classifiers are compared by identity,
    the spec's "identity-based membership". *)
Fixpoint list_remove (x : oid) (l : list oid) : option (list oid) :=
  match l with
  | [] => None
  | y :: l' => if decide (y = x) then Some l' else cons y <$> list_remove x l'
  end.

(** ** genotype.py *)

(** An allele: a Python int, or a numpy float (binary64). *)
Inductive allele :=
| Discrete (z : Z)
| Floating (q : float).

(** A [Genotype] object: its [_alleles] list. *)
Record Genotype := mkGenotype { _alleles : list allele }.

(** The exception of an index out of range. *)
Inductive index_exn := IndexError.

(** [np.isclose(a, b, rtol=rtol)] with numpy's default [atol = 1e-8]:
    [|a - b| <= atol + rtol * |b|] on finite numbers, [a == b] when one of
    them is infinite or not a number. *)
Definition np_isclose (a b rtol : float) : bool :=
  if PrimFloat.is_finite a && PrimFloat.is_finite b
  then PrimFloat.leb (PrimFloat.abs (PrimFloat.sub a b))
         (PrimFloat.add 0x1.5798ee2308c3ap-27%float
            (PrimFloat.mul rtol (PrimFloat.abs b)))
  else PrimFloat.eqb a b.

Section GenotypeEq.

(** [float_allele_rel_tol] of [piecewise/dtype/config.py], which is not
    among the sources. *)
Variable float_allele_rel_tol : float.

(** Two numpy floats go through [np.isclose]; two ints are compared as
    ints; an int and a numpy float are compared after the int is converted
    to binary64 (never equal when it is beyond the range). *)
Definition _alleles_are_equal (my_allele other_allele : allele) : bool :=
  match my_allele, other_allele with
  | Floating a, Floating b => np_isclose a b float_allele_rel_tol
  | Discrete x, Discrete y => Z.eqb x y
  | Discrete x, Floating b =>
      negb (PrimFloat.is_infinity (float_of_Z x)) && PrimFloat.eqb (float_of_Z x) b
  | Floating a, Discrete y =>
      negb (PrimFloat.is_infinity (float_of_Z y)) && PrimFloat.eqb a (float_of_Z y)
  end.

(** The loop of [__eq__] over [zip(self._alleles, other._alleles)]. *)
Fixpoint __eq___loop (mine others : list allele) : bool :=
  match mine, others with
  | my_allele :: mine', other_allele :: others' =>
      if negb (_alleles_are_equal my_allele other_allele)
      then false
      else __eq___loop mine' others'
  | _, _ => true
  end.

Definition __eq__ (self other : Genotype) : bool :=
  __eq___loop (_alleles self) (_alleles other).

End GenotypeEq.

(** The position a Python list gives to an int index: negative indices
    count from the end; [None] when out of range. *)
Definition py_index (len : nat) (idx : Z) : option nat :=
  let i := if idx <? 0 then idx + Z.of_nat len else idx in
  if (0 <=? i) && (i <? Z.of_nat len) then Some (Z.to_nat i) else None.

Definition __getitem__ (self : Genotype) (idx : Z) : index_exn + allele :=
  match py_index (length (_alleles self)) idx with
  | Some i =>
      match _alleles self !! i with
      | Some a => inr a
      | None => inl IndexError
      end
  | None => inl IndexError
  end.

(** [__setitem__] returns the genotype as it is after the assignment. *)
Definition __setitem__ (self : Genotype) (idx : Z) (value : allele)
    : index_exn + Genotype :=
  match py_index (length (_alleles self)) idx with
  | Some i => inr (mkGenotype (<[i := value]> (_alleles self)))
  | None => inl IndexError
  end.

Definition __len__ (self : Genotype) : nat := length (_alleles self).

(** Rules are opaque here; [==] on rules is a decidable equality. *)
Section WithRule.
Context {Rule : Type} `{EqDecision Rule} {F : Type}.

(** The store of classifier objects, the population, and how many draws
    have been taken from the process-wide random generator. *)
Record World := mkWorld {
  heap : oid -> Classifier Rule F;
  population : Population;
  rng_calls : nat
}.

(** ** State and exception monad *)

Inductive Res (A : Type) :=
| Ok (a : A) (w : World)
| Raise (e : exn) (w : World).
Arguments Ok {A} _ _.
Arguments Raise {A} _ _.

Definition M (A : Type) := World -> Res A.

Definition ret {A} (a : A) : M A := fun w => Ok a w.
Definition raise {A} (e : exn) : M A := fun w => Raise e w.
Definition bind {A B} (m : M A) (k : A -> M B) : M B :=
  fun w => match m w with
           | Ok a w' => k a w'
           | Raise e w' => Raise e w'
           end.

Notation "'let*' x ':=' m 'in' k" := (bind m (fun x => k))
  (at level 10, x name, m at level 100, k at level 200).
Notation "m >> k" := (bind m (fun _ => k))
  (at level 68, right associativity).

Definition final_world {A} (r : Res A) : World :=
  match r with Ok _ w => w | Raise _ w => w end.

Definition py_assert (b : bool) : M unit :=
  if b then ret tt else raise AssertionError.

(** Attribute reads and writes. *)
Definition get_numerosity (c : oid) : M Z := fun w => Ok (numerosity (heap w c)) w.
Definition get_rule (c : oid) : M Rule := fun w => Ok (rule (heap w c)) w.
Definition set_numerosity (c : oid) (n : Z) : M unit :=
  fun w => Ok tt (mkWorld (<[c := with_numerosity (heap w c) n]> (heap w))
                          (population w) (rng_calls w)).

Definition get_members : M (list oid) := fun w => Ok (members (population w)) w.
Definition set_members (l : list oid) : M unit :=
  fun w => let p := population w in
           Ok tt (mkWorld (heap w)
                    (mkPopulation l (num_micros p) (max_micros p) (operations_record p))
                    (rng_calls w)).
Definition get_num_micros : M Z := fun w => Ok (num_micros (population w)) w.
Definition get_max_micros : M Z := fun w => Ok (max_micros (population w)) w.
Definition set_num_micros (n : Z) : M unit :=
  fun w => let p := population w in
           Ok tt (mkWorld (heap w)
                    (mkPopulation (members p) n (max_micros p) (operations_record p))
                    (rng_calls w)).

(** Modelled from the spec: [PopulationOperationRecorder] is not among the
    sources; the spec's OperationLedger "accumulates named counters of
    micro-classifier units affected per labeled operation type".  A counter
    that was never written reads 0. *)
Definition recorder_get (r : gmap string Z) (label : string) : Z :=
  default 0 (r !! label).
Definition recorder_add (label : string) (n : Z) : M unit :=
  fun w => let p := population w in
           Ok tt (mkWorld (heap w)
                    (mkPopulation (members p) (num_micros p) (max_micros p)
                       (<[label := recorder_get (operations_record p) label + n]>
                          (operations_record p)))
                    (rng_calls w)).

(** [self._members.append(c)] and [self._members.remove(c)]. *)
Definition members_append (c : oid) : M unit :=
  let* ms := get_members in set_members (ms ++ [c]).
Definition members_remove (c : oid) : M unit :=
  let* ms := get_members in
  match list_remove c ms with
  | Some ms' => set_members ms'
  | None => raise ValueError
  end.

(** Modelled from the spec: [verify_membership] lives in
    [classifier_set_base.py], which is not among the sources.  The spec:
    the wrapper "fails with MemberNotFoundError before the operation body
    runs if the classifier is absent"; membership is by object identity. *)
Definition verify_membership {A} (classifiers : list oid) (method : M A) : M A :=
  let* ms := get_members in
  if forallb (fun c => bool_decide (c ∈ ms)) classifiers
  then method
  else raise MemberNotFoundError.

(** Modelled from the spec: [num_macros] of the base class, the spec's
    [macro_count()]. *)
Definition num_macros (w : World) : nat := length (members (population w)).

(** ** population.py *)

Definition record_operation {A} (atomic_method : M A)
    (operation_label : option string) : M A :=
  let* micros_before := get_num_micros in
  let* result := atomic_method in
  let* micros_after := get_num_micros in
  let micros_delta := micros_after - micros_before in
  let num_micros_altered := Z.abs micros_delta in
  match operation_label with
  | Some label => recorder_add label num_micros_altered >> ret result
  | None => ret result
  end.

Definition _validate_and_return_max_micros (max_micros : PyVal) : exn + Z :=
  match py_int max_micros with
  | inl e => inl e
  | inr max_micros =>
      if negb (max_micros >? 0) then inl InvalidSizeError else inr max_micros
  end.

(** [Population.__init__]: the new object, or the exception raised. *)
Definition __init__ (max_micros : PyVal) : exn + Population :=
  match _validate_and_return_max_micros max_micros with
  | inl e => inl e
  | inr mm => inr (mkPopulation [] 0 mm ∅)
  end.

Definition _inc_num_micros (added_numerosity : Z) : M unit :=
  let* n := get_num_micros in set_num_micros (n + added_numerosity).

Definition _dec_num_micros (removed_numerosity : Z) : M unit :=
  let* n := get_num_micros in
  set_num_micros (n - removed_numerosity) >>
  let* n' := get_num_micros in
  py_assert (n' >=? 0).

Definition _atomic_add_new (new_classifier : oid)
    (operation_label : option string) : M unit :=
  record_operation
    (members_append new_classifier >>
     let* n := get_numerosity new_classifier in
     _inc_num_micros n)
    operation_label.

Definition _atomic_copy_existing (existing_classifier : oid) (num_copies : Z)
    (operation_label : option string) : M unit :=
  record_operation
    (py_assert (num_copies >=? 1) >>
     let* n := get_numerosity existing_classifier in
     set_numerosity existing_classifier (n + num_copies) >>
     _inc_num_micros num_copies)
    operation_label.

Definition _atomic_remove_whole (classifier : oid)
    (operation_label : option string) : M unit :=
  record_operation
    (members_remove classifier >>
     let* n := get_numerosity classifier in
     _dec_num_micros n)
    operation_label.

Definition _atomic_remove_single_copy (existing_classifier : oid)
    (operation_label : option string) : M unit :=
  record_operation
    (let* n := get_numerosity existing_classifier in
     (if n >? 1
      then set_numerosity existing_classifier (n - 1)
      else members_remove existing_classifier) >>
     _dec_num_micros 1)
    operation_label.

Definition add (classifier : oid) (operation_label : option string) : M unit :=
  _atomic_add_new classifier operation_label.

Definition _absorb (absorbee absorber : oid) : M unit :=
  let* num_absorber_copies := get_numerosity absorbee in
  _atomic_copy_existing absorber num_absorber_copies (Some "absorption"%string).

(** The [for member in self._members] loop of [_try_to_absorb]. *)
Fixpoint _try_to_absorb_loop (classifier : oid) (ms : list oid) : M bool :=
  match ms with
  | [] => ret false
  | member :: ms' =>
      let* member_rule := get_rule member in
      let* classifier_rule := get_rule classifier in
      if bool_decide (member_rule = classifier_rule)
      then _absorb classifier member >> ret true
      else _try_to_absorb_loop classifier ms'
  end.

Definition _try_to_absorb (classifier : oid) : M bool :=
  let* ms := get_members in _try_to_absorb_loop classifier ms.

Definition insert (classifier : oid) (operation_label : option string) : M unit :=
  let* was_absorbed := _try_to_absorb classifier in
  if negb was_absorbed
  then _atomic_add_new classifier operation_label
  else ret tt.

Definition duplicate (classifier : oid) (num_copies : Z)
    (operation_label : option string) : M unit :=
  verify_membership [classifier]
    (py_assert (num_copies >=? 1) >>
     _atomic_copy_existing classifier num_copies operation_label).

Definition replace (replacee replacer : oid)
    (operation_label : option string) : M unit :=
  verify_membership [replacee; replacer]
    (let* num_replacer_copies := get_numerosity replacee in
     _atomic_remove_whole replacee None >>
     _atomic_copy_existing replacer num_replacer_copies operation_label).

Definition delete (classifier : oid) : M unit :=
  verify_membership [classifier]
    (_atomic_remove_single_copy classifier (Some "deletion"%string)).

Definition remove (classifier : oid) (operation_label : option string) : M unit :=
  verify_membership [classifier]
    (_atomic_remove_whole classifier operation_label).

(** ** Observations and the sequences of operations of a caller *)

(** The sum of [numerosity] over the members, each list entry counted. *)
Fixpoint micro_total (h : oid -> Classifier Rule F) (ms : list oid) : Z :=
  match ms with
  | [] => 0
  | c :: ms' => numerosity (h c) + micro_total h ms'
  end.

(** What [record_operation] leaves in the recorder for a change of [d]. *)
Definition recorded (label : option string) (d : Z) (r : gmap string Z)
    : gmap string Z :=
  match label with
  | Some l => <[l := recorder_get r l + Z.abs d]> r
  | None => r
  end.

(** The invariants of the spec's data model: [num_micros] is the sum of the
    members' numerosities, every member has numerosity at least 1, and the
    members are distinct objects. *)
Record pop_inv (w : World) : Prop := mk_pop_inv {
  inv_micros : num_micros (population w) = micro_total (heap w) (members (population w));
  inv_positive : ∀ c, c ∈ members (population w) → 1 ≤ numerosity (heap w c);
  inv_distinct : NoDup (members (population w))
}.

Inductive Op :=
| OpAdd (c : oid) (label : option string)
| OpInsert (c : oid) (label : option string)
| OpDuplicate (c : oid) (num_copies : Z) (label : option string)
| OpReplace (replacee replacer : oid) (label : option string)
| OpDelete (c : oid)
| OpRemove (c : oid) (label : option string).

Definition run_op (op : Op) : M unit :=
  match op with
  | OpAdd c l => add c l
  | OpInsert c l => insert c l
  | OpDuplicate c n l => duplicate c n l
  | OpReplace a b l => replace a b l
  | OpDelete c => delete c
  | OpRemove c l => remove c l
  end.

(** The preconditions in the words of the spec: the arguments of
    [duplicate], [replace], [delete] and [remove] are members and the count
    of [duplicate] is at least 1; [add] and [insert] have none. *)
Definition spec_pre (op : Op) (w : World) : Prop :=
  let ms := members (population w) in
  match op with
  | OpAdd _ _ | OpInsert _ _ => True
  | OpDuplicate c n _ => c ∈ ms ∧ 1 ≤ n
  | OpReplace a b _ => a ∈ ms ∧ b ∈ ms
  | OpDelete c | OpRemove c _ => c ∈ ms
  end.

(** The preconditions under which the bookkeeping is exact: moreover, a
    classifier handed over has numerosity at least 1, [add] is given an
    object that is not yet a member, and [replace] two different objects. *)
Definition exact_pre (op : Op) (w : World) : Prop :=
  let ms := members (population w) in
  match op with
  | OpAdd c _ => (c ∉ ms) ∧ 1 ≤ numerosity (heap w c)
  | OpInsert c _ => 1 ≤ numerosity (heap w c)
  | OpDuplicate c n _ => c ∈ ms ∧ 1 ≤ n
  | OpReplace a b _ => a ∈ ms ∧ b ∈ ms ∧ a ≠ b
  | OpDelete c | OpRemove c _ => c ∈ ms
  end.

(** The states a caller can observe: that of a freshly constructed
    population, and the state after any operation whose precondition held
    in an observable state (whether it returned or raised). *)
Inductive reachable (pre : Op → World → Prop) : World → Prop :=
| reachable_init h v p k :
    __init__ v = inr p → reachable pre (mkWorld h p k)
| reachable_step w op :
    reachable pre w → pre op w → reachable pre (final_world (run_op op w)).

(** ** deletion.py *)

(** A step that returns or raises without touching the state. *)
Definition lift {A} (r : exn + A) : M A :=
  fun w => match r with
           | inl e => Raise e w
           | inr a => Ok a w
           end.

Section Deletion.

Context `{!Arith F}.

(** [get_hyperparam("theta_del")] and [get_hyperparam("delta")]. *)
Variables theta_del delta : F.

(** [rand k] is the value of the [k]-th call of [get_rng().rand()]. *)
Variable rand : nat -> F.

(** Modelled from the spec: [calc_summary_stat(population, "mean",
    "fitness")] comes from [piecewise/util/classifier_set_stats.py], which
    is not among the sources.  The spec: "the population-wide mean of
    fitness across current macro-classifiers".  It is given the
    classifiers and the members, returns a number or raises, and writes
    nothing; what it computes is left open. *)
Variable calc_summary_stat_mean_fitness :
  (oid -> Classifier Rule F) -> list oid -> exn + F.

Definition calc_summary_stat : M F :=
  fun w => lift (calc_summary_stat_mean_fitness (heap w) (members (population w))) w.

Definition rng_rand : M F :=
  fun w => Ok (rand (rng_calls w))
              (mkWorld (heap w) (population w) (S (rng_calls w))).

Definition get_classifier (c : oid) : M (Classifier Rule F) := fun w => Ok (heap w c) w.

(** [numerosity] is an int: it is converted where it meets a scalar, in
    the product first and then in the quotient. *)
Definition _calc_deletion_vote (classifier : oid) (mean_fitness_in_pop : F) : M F :=
  let* c := get_classifier classifier in
  let* n := lift (of_int (numerosity c)) in
  let vote := f_mul (action_set_size c) n in
  let* fitness_numerosity_ratio := lift (f_div (fitness c) n) in
  let has_sufficient_experience := f_ltb theta_del (experience c) in
  let has_low_fitness :=
    f_ltb fitness_numerosity_ratio (f_mul delta mean_fitness_in_pop) in
  if has_sufficient_experience && has_low_fitness
  then let* factor := lift (f_div mean_fitness_in_pop fitness_numerosity_ratio) in
       ret (f_mul vote factor)
  else ret vote.

(** The list comprehension computing [votes]. *)
Fixpoint calc_votes (ms : list oid) (mean_fitness_in_pop : F) : M (list F) :=
  match ms with
  | [] => ret []
  | classifier :: ms' =>
      let* vote := _calc_deletion_vote classifier mean_fitness_in_pop in
      let* votes := calc_votes ms' mean_fitness_in_pop in
      ret (vote :: votes)
  end.

(** The abstract class: one method to override. *)
Class DeletionStrategyABC := {
  _select_for_deletion : M (option oid)
}.

(** [population.delete(classifier_to_delete)] on what the selection
    returned; [None] is not a member, so the membership check rejects it. *)
Definition delete_selected (classifier_to_delete : option oid) : M unit :=
  match classifier_to_delete with
  | Some classifier => delete classifier
  | None => raise MemberNotFoundError
  end.

(** One pass of the body of the [for _ in range(num_deletions)] loop. *)
Definition deletion_round `{DeletionStrategyABC} : M unit :=
  let* classifier_to_delete := _select_for_deletion in
  delete_selected classifier_to_delete.

Fixpoint deletion_rounds `{DeletionStrategyABC} (n : nat) : M unit :=
  match n with
  | O => ret tt
  | S n' => deletion_round >> deletion_rounds n'
  end.

Definition _perform_deletions `{DeletionStrategyABC} : M unit :=
  let* nm := get_num_micros in
  let* mm := get_max_micros in
  let num_deletions := nm - mm in
  py_assert (num_deletions >=? 1) >>
  deletion_rounds (Z.to_nat num_deletions).

Definition __call__ `{DeletionStrategyABC} : M unit :=
  let* nm := get_num_micros in
  let* mm := get_max_micros in
  let deletion_is_required := nm >? mm in
  (if deletion_is_required then _perform_deletions else ret tt) >>
  let* nm' := get_num_micros in
  let* mm' := get_max_micros in
  py_assert (nm' <=? mm').

Definition XCSRouletteWheelDeletion_select_for_deletion : M (option oid) :=
  let* mean_fitness_in_pop := calc_summary_stat in
  let* ms := get_members in
  let* votes := calc_votes ms mean_fitness_in_pop in
  let vote_sum := py_sum votes in
  let* r := rng_rand in
  let choice_point := f_mul r vote_sum in
  let* ms' := get_members in
  ret (roulette_scan (zip ms' votes) f_zero choice_point).

Definition XCSRouletteWheelDeletion : DeletionStrategyABC :=
  {| _select_for_deletion := XCSRouletteWheelDeletion_select_for_deletion |}.

End Deletion.

(** ** States used in the examples *)

(** Modelled from the spec: a mean for the examples, "the population-wide
    mean of fitness across current macro-classifiers": the sum of the
    members' fitness divided by their number. *)
Definition mean_fitness `{!Arith F} (h : oid -> Classifier Rule F) (ms : list oid)
    : exn + F :=
  match of_int (Z.of_nat (length ms)) with
  | inl e => inl e
  | inr n => f_div (py_sum (map (fun c => fitness (h c)) ms)) n
  end.

(** A store in which every object has rule [r], numerosity [n], fitness
    [f], experience [e] and action-set size [a]. *)
Definition uniform_heap (r : Rule) (n : Z) (f e a : F) : oid -> Classifier Rule F :=
  fun _ => mkClassifier r n f e a.

Definition uniform_world (r : Rule) (n : Z) (f e a : F) (ms : list oid)
    (nm mm : Z) : World :=
  mkWorld (uniform_heap r n f e a) (mkPopulation ms nm mm ∅) 0.

(** ** What an operation leaves alone *)

(** [frame w w']: from [w] to [w'] the capacity, the random generator and
    every attribute of every classifier but its numerosity are unchanged,
    and no counter of the recorder has gone down. *)
Definition frame (w w' : World) : Prop :=
  max_micros (population w') = max_micros (population w) ∧
  rng_calls w' = rng_calls w ∧
  (∀ o, rule (heap w' o) = rule (heap w o) ∧
        fitness (heap w' o) = fitness (heap w o) ∧
        experience (heap w' o) = experience (heap w o) ∧
        action_set_size (heap w' o) = action_set_size (heap w o)) ∧
  (∀ l, recorder_get (operations_record (population w)) l
        ≤ recorder_get (operations_record (population w')) l).

Definition keeps_frame {A} (m : M A) : Prop :=
  ∀ w, frame w (final_world (m w)).

(** ** reinforcement_algorithm.py *)

Section ActionSet.

(** [classifier.action]: the [Classifier] class is not among the sources,
    so the attribute is a function of the classifier. *)
Context {Action : Type} `{EqDecision Action}.
Variable action : Classifier Rule F -> Action.

(** The loop of [_gen_action_set]; a [ClassifierSet] is its list of
    members, and [add] of the base class appends (the spec: "unconditional
    append"). *)
Fixpoint _gen_action_set_loop (h : oid -> Classifier Rule F)
    (match_set action_set : list oid) (a : Action) : list oid :=
  match match_set with
  | [] => action_set
  | classifier :: match_set' =>
      if decide (action (h classifier) = a)
      then _gen_action_set_loop h match_set' (action_set ++ [classifier]) a
      else _gen_action_set_loop h match_set' action_set a
  end.

Definition _gen_action_set (h : oid -> Classifier Rule F)
    (match_set : list oid) (a : Action) : list oid :=
  _gen_action_set_loop h match_set [] a.

End ActionSet.

(** * Facts about the population *)

Section PopulationFacts.

Ltac unfold_ops :=
  unfold add, remove, delete, duplicate, replace, insert, _absorb,
    verify_membership, _atomic_add_new, _atomic_copy_existing,
    _atomic_remove_whole, _atomic_remove_single_copy, record_operation,
    _inc_num_micros, _dec_num_micros, members_append, members_remove,
    recorder_add, set_members, set_num_micros, set_numerosity,
    get_members, get_num_micros, get_max_micros, get_numerosity, get_rule,
    py_assert, bind, ret, raise.

Lemma list_remove_Some x l :
  x ∈ l → ∃ l1 l2, l = l1 ++ x :: l2 ∧ (x ∉ l1) ∧ list_remove x l = Some (l1 ++ l2).
Proof.
  induction l as [|y l IH]; intros Hin.
  - by apply elem_of_nil in Hin.
  - simpl. destruct (decide (y = x)) as [->|Hne].
    + exists [], l. split; [done|]. split; [apply not_elem_of_nil|done].
    + apply elem_of_cons in Hin as [->|Hin]; [done|].
      destruct (IH Hin) as (l1 & l2 & -> & Hni & ->).
      exists (y :: l1), l2. split; [done|]. split; [|done].
      intros [->|?]%elem_of_cons; done.
Qed.

Lemma list_remove_None x l : x ∉ l → list_remove x l = None.
Proof.
  induction l as [|y l IH]; intros Hni; [done|].
  simpl. apply not_elem_of_cons in Hni as [Hne Hni].
  destruct (decide (y = x)); [done|]. by rewrite IH.
Qed.

Lemma micro_total_app h l1 l2 :
  micro_total h (l1 ++ l2) = micro_total h l1 + micro_total h l2.
Proof. induction l1 as [|c l1 IH]; simpl; [done|]. rewrite IH. lia. Qed.

Lemma micro_total_insert_notin h c v l :
  c ∉ l → micro_total (<[c:=v]> h) l = micro_total h l.
Proof.
  induction l as [|y l IH]; intros Hni; [done|].
  apply not_elem_of_cons in Hni as [Hne Hni]. simpl.
  rewrite fn_lookup_insert_ne by done. by rewrite IH.
Qed.

Lemma micro_total_insert_in h c v l :
  NoDup l → c ∈ l →
  micro_total (<[c:=v]> h) l = micro_total h l + numerosity v - numerosity (h c).
Proof.
  intros Hnd Hin. apply list_elem_of_split in Hin as (l1 & l2 & ->).
  apply NoDup_app in Hnd as (_ & Hl1 & [Hl2 _]%NoDup_cons).
  rewrite !micro_total_app. simpl. rewrite fn_lookup_insert.
  rewrite !micro_total_insert_notin; [lia|done|].
  intros Hc. apply (Hl1 c Hc). apply elem_of_cons. by left.
Qed.

Lemma micro_total_nonneg h l :
  (∀ x, x ∈ l → 1 ≤ numerosity (h x)) → 0 ≤ micro_total h l.
Proof.
  induction l as [|y l IH]; intros Hpos; simpl; [lia|].
  assert (1 ≤ numerosity (h y)) by (apply Hpos, elem_of_cons; by left).
  assert (0 ≤ micro_total h l); [|lia].
  apply IH. intros x Hx. apply Hpos, elem_of_cons. by right.
Qed.

Lemma micro_total_member h l c :
  (∀ x, x ∈ l → 1 ≤ numerosity (h x)) → c ∈ l →
  numerosity (h c) ≤ micro_total h l.
Proof.
  intros Hpos Hin. apply list_elem_of_split in Hin as (l1 & l2 & ->).
  rewrite micro_total_app. simpl.
  assert (0 ≤ micro_total h l1).
  { apply micro_total_nonneg. intros x Hx. apply Hpos, elem_of_app. by left. }
  assert (0 ≤ micro_total h l2); [|lia].
  apply micro_total_nonneg. intros x Hx.
  apply Hpos, elem_of_app. right. apply elem_of_cons. by right.
Qed.

(** The atomic operations in closed form. *)

Lemma _atomic_add_new_run c l w :
  _atomic_add_new c l w =
  Ok tt (mkWorld (heap w)
           (mkPopulation (members (population w) ++ [c])
              (num_micros (population w) + numerosity (heap w c))
              (max_micros (population w))
              (recorded l (numerosity (heap w c)) (operations_record (population w))))
           (rng_calls w)).
Proof.
  unfold_ops. simpl.
  replace (num_micros (population w) + numerosity (heap w c)
           - num_micros (population w)) with (numerosity (heap w c)) by lia.
  by destruct l.
Qed.

Lemma _atomic_copy_existing_run c n l w :
  1 ≤ n →
  _atomic_copy_existing c n l w =
  Ok tt (mkWorld (<[c := with_numerosity (heap w c) (numerosity (heap w c) + n)]> (heap w))
           (mkPopulation (members (population w))
              (num_micros (population w) + n)
              (max_micros (population w))
              (recorded l n (operations_record (population w))))
           (rng_calls w)).
Proof.
  intros Hn. unfold_ops. simpl.
  destruct (n >=? 1) eqn:E; [|lia]. simpl.
  replace (num_micros (population w) + n - num_micros (population w)) with n by lia.
  by destruct l.
Qed.

Lemma _atomic_copy_existing_raise c n l w :
  n < 1 → _atomic_copy_existing c n l w = Raise AssertionError w.
Proof.
  intros Hn. unfold_ops. simpl. destruct (n >=? 1) eqn:E; [lia|done].
Qed.

Lemma _atomic_remove_whole_run c l w ms' :
  list_remove c (members (population w)) = Some ms' →
  numerosity (heap w c) ≤ num_micros (population w) →
  _atomic_remove_whole c l w =
  Ok tt (mkWorld (heap w)
           (mkPopulation ms'
              (num_micros (population w) - numerosity (heap w c))
              (max_micros (population w))
              (recorded l (numerosity (heap w c)) (operations_record (population w))))
           (rng_calls w)).
Proof.
  intros Hrm Hle. unfold_ops. simpl. rewrite Hrm. simpl.
  destruct (_ >=? 0) eqn:E; [|lia]. simpl.
  replace (num_micros (population w) - numerosity (heap w c)
           - num_micros (population w)) with (- numerosity (heap w c)) by lia.
  destruct l; simpl; [|done]. by rewrite Z.abs_opp.
Qed.

Lemma _atomic_remove_single_copy_dec c l w :
  1 < numerosity (heap w c) → 1 ≤ num_micros (population w) →
  _atomic_remove_single_copy c l w =
  Ok tt (mkWorld (<[c := with_numerosity (heap w c) (numerosity (heap w c) - 1)]> (heap w))
           (mkPopulation (members (population w))
              (num_micros (population w) - 1)
              (max_micros (population w))
              (recorded l 1 (operations_record (population w))))
           (rng_calls w)).
Proof.
  intros Hn Hm. unfold_ops. simpl.
  destruct (numerosity (heap w c) >? 1) eqn:E; [|lia]. simpl.
  destruct (_ >=? 0) eqn:E'; [|lia]. simpl.
  replace (num_micros (population w) - 1 - num_micros (population w)) with (-1) by lia.
  by destruct l.
Qed.

Lemma _atomic_remove_single_copy_last c l w ms' :
  numerosity (heap w c) ≤ 1 →
  list_remove c (members (population w)) = Some ms' →
  1 ≤ num_micros (population w) →
  _atomic_remove_single_copy c l w =
  Ok tt (mkWorld (heap w)
           (mkPopulation ms'
              (num_micros (population w) - 1)
              (max_micros (population w))
              (recorded l 1 (operations_record (population w))))
           (rng_calls w)).
Proof.
  intros Hn Hrm Hm. unfold_ops. simpl.
  destruct (numerosity (heap w c) >? 1) eqn:E; [lia|]. simpl.
  rewrite Hrm. simpl.
  destruct (_ >=? 0) eqn:E'; [|lia]. simpl.
  replace (num_micros (population w) - 1 - num_micros (population w)) with (-1) by lia.
  by destruct l.
Qed.

Lemma verify_membership_pass {A} cs (m : M A) w :
  Forall (λ c, c ∈ members (population w)) cs → verify_membership cs m w = m w.
Proof.
  intros Hall. unfold verify_membership, bind, get_members. simpl.
  destruct (forallb _ cs) eqn:E; [done|].
  exfalso. apply not_true_iff_false in E. apply E.
  apply forallb_forall. intros c Hc. apply bool_decide_eq_true.
  rewrite Forall_forall in Hall. apply Hall. by apply list_elem_of_In.
Qed.

Lemma verify_membership_fail {A} cs (m : M A) w c :
  c ∈ cs → c ∉ members (population w) →
  verify_membership cs m w = Raise MemberNotFoundError w.
Proof.
  intros Hc Hni. unfold verify_membership, bind, get_members, raise. simpl.
  destruct (forallb _ cs) eqn:E; [|done].
  exfalso. rewrite forallb_forall in E.
  apply list_elem_of_In in Hc. apply E in Hc.
  by apply bool_decide_eq_true in Hc.
Qed.

Lemma list_remove_NoDup x l :
  NoDup l → x ∈ l →
  ∃ l', list_remove x l = Some l' ∧ (x ∉ l') ∧ NoDup l' ∧
        (∀ y, y ∈ l' → y ∈ l) ∧ (∀ y, y ∈ l → y ≠ x → y ∈ l') ∧
        S (length l') = length l ∧
        ∀ h : oid → Classifier Rule F,
          micro_total h l' = micro_total h l - numerosity (h x).
Proof.
  intros Hnd Hin.
  destruct (list_remove_Some x l Hin) as (l1 & l2 & -> & Hni & Hrm).
  apply NoDup_app in Hnd as (Hnd1 & Hl1 & [Hl2 Hnd2]%NoDup_cons).
  exists (l1 ++ l2). split; [done|]. repeat split.
  - intros [?|?]%elem_of_app; done.
  - apply NoDup_app. repeat split; [done| |done].
    intros y Hy1 Hy2. apply (Hl1 y Hy1), elem_of_cons. by right.
  - intros y [?|?]%elem_of_app; apply elem_of_app; [by left|].
    right. apply elem_of_cons. by right.
  - intros y [?|[?|?]%elem_of_cons]%elem_of_app Hne;
      apply elem_of_app; [by left|done|by right].
  - rewrite !length_app. simpl. lia.
  - intros h. rewrite !micro_total_app. simpl. lia.
Qed.

(** How the invariants move with the three kinds of structural change. *)

Lemma pop_inv_append w c l :
  pop_inv w → c ∉ members (population w) → 1 ≤ numerosity (heap w c) →
  pop_inv (mkWorld (heap w)
             (mkPopulation (members (population w) ++ [c])
                (num_micros (population w) + numerosity (heap w c))
                (max_micros (population w)) l)
             (rng_calls w)).
Proof.
  intros [Hm Hp Hd] Hni Hn. constructor; simpl.
  - rewrite micro_total_app, Hm. simpl. lia.
  - intros x [Hx|Hx%list_elem_of_singleton]%elem_of_app; [by apply Hp|by subst].
  - apply NoDup_app. repeat split; [done| |apply NoDup_singleton].
    intros x Hx ->%list_elem_of_singleton. done.
Qed.

Lemma pop_inv_set_numerosity w c n' nm' l :
  pop_inv w → c ∈ members (population w) → 1 ≤ n' →
  nm' = num_micros (population w) + n' - numerosity (heap w c) →
  pop_inv (mkWorld (<[c := with_numerosity (heap w c) n']> (heap w))
             (mkPopulation (members (population w)) nm'
                (max_micros (population w)) l)
             (rng_calls w)).
Proof.
  intros [Hm Hp Hd] Hin Hn ->. constructor; simpl.
  - rewrite micro_total_insert_in by done. simpl. lia.
  - intros x Hx. destruct (decide (c = x)) as [->|Hne].
    + by rewrite fn_lookup_insert.
    + rewrite fn_lookup_insert_ne by done. by apply Hp.
  - done.
Qed.

Lemma pop_inv_removed w c ms' l :
  pop_inv w → c ∈ members (population w) →
  list_remove c (members (population w)) = Some ms' →
  pop_inv (mkWorld (heap w)
             (mkPopulation ms'
                (num_micros (population w) - numerosity (heap w c))
                (max_micros (population w)) l)
             (rng_calls w)).
Proof.
  intros [Hm Hp Hd] Hin Hrm.
  destruct (list_remove_NoDup c _ Hd Hin) as (l' & Hrm' & Hni & Hnd & Hsub & _ & _ & Hsum).
  rewrite Hrm in Hrm'. injection Hrm' as <-.
  constructor; simpl.
  - rewrite Hsum, Hm. done.
  - intros x Hx. by apply Hp, Hsub.
  - done.
Qed.

(** The public operations in closed form, under their preconditions. *)

Lemma duplicate_run c n l w :
  c ∈ members (population w) → 1 ≤ n →
  duplicate c n l w =
  Ok tt (mkWorld (<[c := with_numerosity (heap w c) (numerosity (heap w c) + n)]> (heap w))
           (mkPopulation (members (population w))
              (num_micros (population w) + n)
              (max_micros (population w))
              (recorded l n (operations_record (population w))))
           (rng_calls w)).
Proof.
  intros Hin Hn. unfold duplicate.
  rewrite verify_membership_pass by (repeat constructor; done).
  unfold bind at 1, py_assert. destruct (n >=? 1) eqn:E; [|lia].
  simpl. by apply _atomic_copy_existing_run.
Qed.

Lemma remove_run c l w :
  pop_inv w → c ∈ members (population w) →
  ∃ ms', list_remove c (members (population w)) = Some ms' ∧
  remove c l w =
  Ok tt (mkWorld (heap w)
           (mkPopulation ms'
              (num_micros (population w) - numerosity (heap w c))
              (max_micros (population w))
              (recorded l (numerosity (heap w c)) (operations_record (population w))))
           (rng_calls w)).
Proof.
  intros Hinv Hin.
  destruct (list_remove_Some c _ Hin) as (l1 & l2 & _ & _ & Hrm).
  exists (l1 ++ l2). split; [done|]. unfold remove.
  rewrite verify_membership_pass by (repeat constructor; done).
  apply _atomic_remove_whole_run; [done|].
  rewrite (inv_micros _ Hinv). apply micro_total_member; [|done].
  apply (inv_positive _ Hinv).
Qed.

Lemma delete_run_dec c w :
  pop_inv w → c ∈ members (population w) → 1 < numerosity (heap w c) →
  delete c w =
  Ok tt (mkWorld (<[c := with_numerosity (heap w c) (numerosity (heap w c) - 1)]> (heap w))
           (mkPopulation (members (population w))
              (num_micros (population w) - 1)
              (max_micros (population w))
              (recorded (Some "deletion"%string) 1 (operations_record (population w))))
           (rng_calls w)).
Proof.
  intros Hinv Hin Hn. unfold delete.
  rewrite verify_membership_pass by (repeat constructor; done).
  apply _atomic_remove_single_copy_dec; [done|].
  pose proof (micro_total_member _ _ _ (inv_positive _ Hinv) Hin).
  rewrite (inv_micros _ Hinv). lia.
Qed.

Lemma delete_run_last c w :
  pop_inv w → c ∈ members (population w) → numerosity (heap w c) = 1 →
  ∃ ms', list_remove c (members (population w)) = Some ms' ∧
  delete c w =
  Ok tt (mkWorld (heap w)
           (mkPopulation ms'
              (num_micros (population w) - 1)
              (max_micros (population w))
              (recorded (Some "deletion"%string) 1 (operations_record (population w))))
           (rng_calls w)).
Proof.
  intros Hinv Hin Hn.
  destruct (list_remove_Some c _ Hin) as (l1 & l2 & _ & _ & Hrm).
  exists (l1 ++ l2). split; [done|]. unfold delete.
  rewrite verify_membership_pass by (repeat constructor; done).
  apply _atomic_remove_single_copy_last; [lia|done|].
  pose proof (micro_total_member _ _ _ (inv_positive _ Hinv) Hin).
  rewrite (inv_micros _ Hinv). lia.
Qed.

Lemma replace_run a b l w :
  pop_inv w → a ∈ members (population w) → b ∈ members (population w) →
  ∃ ms', list_remove a (members (population w)) = Some ms' ∧
  replace a b l w =
  Ok tt (mkWorld (<[b := with_numerosity (heap w b)
                          (numerosity (heap w b) + numerosity (heap w a))]> (heap w))
           (mkPopulation ms'
              (num_micros (population w) - numerosity (heap w a) + numerosity (heap w a))
              (max_micros (population w))
              (recorded l (numerosity (heap w a)) (operations_record (population w))))
           (rng_calls w)).
Proof.
  intros Hinv Ha Hb.
  destruct (list_remove_Some a _ Ha) as (l1 & l2 & _ & _ & Hrm).
  exists (l1 ++ l2). split; [done|]. unfold replace.
  rewrite verify_membership_pass by (repeat constructor; done).
  unfold bind at 1, get_numerosity.
  unfold bind at 1.
  rewrite (_atomic_remove_whole_run a None w (l1 ++ l2)); [|done|].
  - rewrite _atomic_copy_existing_run; [done|]. by apply (inv_positive _ Hinv).
  - rewrite (inv_micros _ Hinv). apply micro_total_member; [|done].
    apply (inv_positive _ Hinv).
Qed.

(** The absorption loop. *)

Lemma _try_to_absorb_loop_none c ms w :
  Forall (λ x, rule (heap w x) ≠ rule (heap w c)) ms →
  _try_to_absorb_loop c ms w = Ok false w.
Proof.
  induction 1 as [|x ms Hx _ IH]; [done|].
  simpl. unfold bind at 1, get_rule. unfold bind at 1.
  rewrite bool_decide_eq_false_2 by done. exact IH.
Qed.

Lemma _try_to_absorb_loop_first c l1 m l2 w :
  Forall (λ x, rule (heap w x) ≠ rule (heap w c)) l1 →
  rule (heap w m) = rule (heap w c) →
  1 ≤ numerosity (heap w c) →
  _try_to_absorb_loop c (l1 ++ m :: l2) w =
  Ok true (mkWorld (<[m := with_numerosity (heap w m)
                            (numerosity (heap w m) + numerosity (heap w c))]> (heap w))
             (mkPopulation (members (population w))
                (num_micros (population w) + numerosity (heap w c))
                (max_micros (population w))
                (recorded (Some "absorption"%string) (numerosity (heap w c))
                   (operations_record (population w))))
             (rng_calls w)).
Proof.
  intros Hl1 Hm Hn. induction Hl1 as [|x l1 Hx _ IH]; simpl.
  - unfold bind at 1, get_rule. unfold bind at 1.
    rewrite bool_decide_eq_true_2 by done.
    unfold bind at 1, _absorb. unfold bind at 1, get_numerosity.
    by rewrite _atomic_copy_existing_run.
  - unfold bind at 1, get_rule. unfold bind at 1.
    rewrite bool_decide_eq_false_2 by done. exact IH.
Qed.

Lemma first_with_rule (h : oid → Classifier Rule F) (r : Rule) ms :
  (∃ m, m ∈ ms ∧ rule (h m) = r) →
  ∃ l1 m l2, ms = l1 ++ m :: l2 ∧ Forall (λ x, rule (h x) ≠ r) l1 ∧ rule (h m) = r.
Proof.
  induction ms as [|x ms IH]; intros (m & Hin & Hm).
  - by apply elem_of_nil in Hin.
  - destruct (decide (rule (h x) = r)) as [Hx|Hx].
    + exists [], x, ms. by repeat split.
    + apply elem_of_cons in Hin as [->|Hin]; [done|].
      destruct IH as (l1 & m' & l2 & -> & Hl1 & Hm'); [by exists m|].
      exists (x :: l1), m', l2. repeat split; [|done]. by constructor.
Qed.

Lemma insert_run_absorb c l l1 m l2 w :
  members (population w) = l1 ++ m :: l2 →
  Forall (λ x, rule (heap w x) ≠ rule (heap w c)) l1 →
  rule (heap w m) = rule (heap w c) →
  1 ≤ numerosity (heap w c) →
  insert c l w =
  Ok tt (mkWorld (<[m := with_numerosity (heap w m)
                          (numerosity (heap w m) + numerosity (heap w c))]> (heap w))
           (mkPopulation (members (population w))
              (num_micros (population w) + numerosity (heap w c))
              (max_micros (population w))
              (recorded (Some "absorption"%string) (numerosity (heap w c))
                 (operations_record (population w))))
           (rng_calls w)).
Proof.
  intros Hms Hl1 Hm Hn. unfold insert, _try_to_absorb.
  unfold bind at 1. unfold bind at 1, get_members.
  pose proof (_try_to_absorb_loop_first c l1 m l2 w Hl1 Hm Hn) as Hrun.
  rewrite <- Hms in Hrun. by rewrite Hrun.
Qed.

Lemma insert_run_new c l w :
  Forall (λ x, rule (heap w x) ≠ rule (heap w c)) (members (population w)) →
  insert c l w = add c l w.
Proof.
  intros Hall. unfold insert, _try_to_absorb.
  unfold bind at 1. unfold bind at 1, get_members.
  by rewrite _try_to_absorb_loop_none.
Qed.

#[local] Arguments recorded : simpl never.

Lemma recorded_get_same l d r :
  recorder_get (recorded (Some l) d r) l = recorder_get r l + Z.abs d.
Proof. unfold recorded, recorder_get at 1. by rewrite lookup_insert_eq. Qed.

(** ** The operations of the population *)

(** C3: when some member has the rule of [c], [insert c] returns with the
    members (and so the macro count) unchanged, the numerosity of the
    absorbing member and [num_micros] both increased by the numerosity of
    [c], and the increase added to the "absorption" counter; when no
    member has that rule, [insert c] is [add c], which appends one member
    and increases [num_micros] by the numerosity of [c]. *)
Theorem insert_absorbs_or_adds (w : World) (c : oid) (label : option string) :
  1 ≤ numerosity (heap w c) →
  ((∃ m, m ∈ members (population w) ∧ rule (heap w m) = rule (heap w c)) →
   ∃ m w',
     m ∈ members (population w) ∧ rule (heap w m) = rule (heap w c) ∧
     insert c label w = Ok tt w' ∧
     members (population w') = members (population w) ∧
     num_macros w' = num_macros w ∧
     numerosity (heap w' m) = numerosity (heap w m) + numerosity (heap w c) ∧
     num_micros (population w') = num_micros (population w) + numerosity (heap w c) ∧
     recorder_get (operations_record (population w')) "absorption" =
       recorder_get (operations_record (population w)) "absorption"
       + numerosity (heap w c)) ∧
  ((∀ m, m ∈ members (population w) → rule (heap w m) ≠ rule (heap w c)) →
   insert c label w = add c label w ∧
   ∃ w',
     add c label w = Ok tt w' ∧
     members (population w') = members (population w) ++ [c] ∧
     num_macros w' = S (num_macros w) ∧
     num_micros (population w') = num_micros (population w) + numerosity (heap w c)).
Proof.
  intros Hn. split.
  - intros Hex.
    destruct (first_with_rule (heap w) (rule (heap w c)) _ Hex)
      as (l1 & m & l2 & Hms & Hl1 & Hm).
    eexists m, _. split.
    { rewrite Hms. apply elem_of_app. right. apply elem_of_cons. by left. }
    split; [done|].
    split; [by eapply insert_run_absorb|]. simpl.
    repeat split; [by rewrite fn_lookup_insert|].
    rewrite recorded_get_same. lia.
  - intros Hnone. split.
    + apply insert_run_new. by apply Forall_forall.
    + eexists. split; [apply _atomic_add_new_run|]. simpl.
      repeat split. unfold num_macros. simpl. rewrite length_app. simpl. lia.
Qed.

(** C4: for members [a] and [b], [replace a b] returns with [num_micros]
    unchanged, [a] no longer a member, and the numerosity of [b] increased
    by the numerosity [a] had before. *)
Theorem replace_preserves_num_micros (w : World) (a b : oid) (label : option string) :
  pop_inv w →
  a ∈ members (population w) → b ∈ members (population w) →
  ∃ w',
    replace a b label w = Ok tt w' ∧
    num_micros (population w') = num_micros (population w) ∧
    (a ∉ members (population w')) ∧
    numerosity (heap w' b) = numerosity (heap w b) + numerosity (heap w a).
Proof.
  intros Hinv Ha Hb.
  destruct (replace_run a b label w Hinv Ha Hb) as (ms' & Hrm & ->).
  destruct (list_remove_NoDup a _ (inv_distinct _ Hinv) Ha)
    as (l' & Hrm' & Hni & _).
  rewrite Hrm in Hrm'. injection Hrm' as <-.
  eexists. split; [done|]. simpl. split; [lia|]. split; [done|].
  by rewrite fn_lookup_insert.
Qed.

(** C5: for a member [c], [delete c] returns with [num_micros] one less and
    the "deletion" counter one more; when the numerosity of [c] exceeds 1
    it is decremented and the members are unchanged; when it is 1, [c] is
    no longer a member and the macro count is one less. *)
Theorem delete_removes_one_micro (w : World) (c : oid) :
  pop_inv w → c ∈ members (population w) →
  ∃ w',
    delete c w = Ok tt w' ∧
    num_micros (population w') = num_micros (population w) - 1 ∧
    recorder_get (operations_record (population w')) "deletion" =
      recorder_get (operations_record (population w)) "deletion" + 1 ∧
    (1 < numerosity (heap w c) →
       numerosity (heap w' c) = numerosity (heap w c) - 1 ∧
       members (population w') = members (population w) ∧
       num_macros w' = num_macros w) ∧
    (numerosity (heap w c) = 1 →
       (c ∉ members (population w')) ∧
       S (num_macros w') = num_macros w ∧
       heap w' = heap w).
Proof.
  intros Hinv Hin.
  pose proof (inv_positive _ Hinv c Hin) as Hpos.
  destruct (decide (1 < numerosity (heap w c))) as [Hgt|Hle].
  - eexists. split; [by apply delete_run_dec|]. simpl.
    split; [done|]. split; [by rewrite recorded_get_same|].
    split; [|lia]. intros _. by rewrite fn_lookup_insert.
  - assert (numerosity (heap w c) = 1) as H1 by lia.
    destruct (delete_run_last c w Hinv Hin H1) as (ms' & Hrm & ->).
    destruct (list_remove_NoDup c _ (inv_distinct _ Hinv) Hin)
      as (l' & Hrm' & Hni & _ & _ & _ & Hlen & _).
    rewrite Hrm in Hrm'. injection Hrm' as <-.
    eexists. split; [done|]. simpl.
    split; [done|]. split; [by rewrite recorded_get_same|].
    split; [lia|]. intros _. by repeat split.
Qed.

(** C9: when [c] is not a member, [duplicate], [delete] and [remove] of [c]
    and [replace] with [c] as replacee or as replacer raise
    [MemberNotFoundError] in the very state they were called in. *)
Theorem absent_classifier_raises (w : World) (c : oid) :
  c ∉ members (population w) →
  (∀ n label, duplicate c n label w = Raise MemberNotFoundError w) ∧
  delete c w = Raise MemberNotFoundError w ∧
  (∀ label, remove c label w = Raise MemberNotFoundError w) ∧
  (∀ other label, replace c other label w = Raise MemberNotFoundError w) ∧
  (∀ other label, replace other c label w = Raise MemberNotFoundError w).
Proof.
  intros Hni. repeat split; intros;
    apply (verify_membership_fail _ _ _ c); set_solver.
Qed.

(** C10: when the members are [l1 ++ m :: l2], no member of [l1] has the
    rule of [c] and [m] has it, [insert c] returns; afterwards the
    numerosity of [m] is its former numerosity plus that of [c], the rule,
    fitness, experience and action-set size of [m] are as they were, and
    every other object and the list of members are untouched. *)
Theorem insert_absorbs_into_first (w : World) (c m : oid) (l1 l2 : list oid)
    (label : option string) :
  members (population w) = l1 ++ m :: l2 →
  (∀ x, x ∈ l1 → rule (heap w x) ≠ rule (heap w c)) →
  rule (heap w m) = rule (heap w c) →
  1 ≤ numerosity (heap w c) →
  ∃ w',
    insert c label w = Ok tt w' ∧
    members (population w') = members (population w) ∧
    numerosity (heap w' m) = numerosity (heap w m) + numerosity (heap w c) ∧
    rule (heap w' m) = rule (heap w m) ∧
    fitness (heap w' m) = fitness (heap w m) ∧
    experience (heap w' m) = experience (heap w m) ∧
    action_set_size (heap w' m) = action_set_size (heap w m) ∧
    ∀ x, x ≠ m → heap w' x = heap w x.
Proof.
  intros Hms Hl1 Hm Hn.
  eexists. split.
  - eapply insert_run_absorb; [done| |done..]. by apply Forall_forall.
  - simpl. split; [done|]. rewrite fn_lookup_insert. simpl.
    do 5 (split; [done|]).
    intros x Hx. by rewrite fn_lookup_insert_ne.
Qed.

(** ** Construction *)

Lemma __init___inv v p :
  __init__ v = inr p →
  members p = [] ∧ num_micros p = 0 ∧ py_int v = inr (max_micros p) ∧
  0 < max_micros p ∧ operations_record p = ∅.
Proof.
  unfold __init__, _validate_and_return_max_micros.
  destruct (py_int v) as [e|z]; [done|].
  destruct (z >? 0) eqn:E; simpl; [|done].
  intros [= <-]. simpl. repeat split. lia.
Qed.

(** C8, as the code has it: construction raises [InvalidSizeError] exactly
    when [int(max_micros)] is defined and is not positive; when
    [int(max_micros)] raises, that exception comes out; a population that
    is constructed starts with no members, [num_micros = 0] and
    [max_micros = int(max_micros)], which is positive.  For a Python int,
    that is: [InvalidSizeError] exactly when it is not positive, and
    otherwise [max_micros] is the value supplied. *)
Theorem init_validates_max_micros (v : PyVal) :
  (__init__ v = inl InvalidSizeError ↔ ∃ z, py_int v = inr z ∧ z ≤ 0) ∧
  (∀ e, py_int v = inl e → __init__ v = inl e) ∧
  (∀ p, __init__ v = inr p ↔
        ∃ z, py_int v = inr z ∧ 0 < z ∧ p = mkPopulation [] 0 z ∅) ∧
  (∀ z, v = PyInt z →
        (__init__ v = inl InvalidSizeError ↔ ¬ is_positive_integer v) ∧
        (is_positive_integer v → __init__ v = inr (mkPopulation [] 0 z ∅))).
Proof.
  unfold __init__, _validate_and_return_max_micros. repeat split.
  - assert (py_int v = inl TypeError ∨ ∃ z, py_int v = inr z) as [->|[z ->]]
      by (destruct v; simpl; eauto); [done|].
    destruct (z >? 0) eqn:E; simpl; [done|].
    intros _. exists z. split; [done|lia].
  - intros (z & Hz & Hle). rewrite Hz.
    destruct (z >? 0) eqn:E; [lia|done].
  - by intros e ->.
  - destruct (py_int v) as [e|z]; [done|].
    destruct (z >? 0) eqn:E; simpl; [|done].
    intros [= <-]. exists z. repeat split. lia.
  - intros (z & Hz & Hpos & ->). rewrite Hz.
    destruct (z >? 0) eqn:E; [done|lia].
  - subst v. simpl. destruct (z >? 0) eqn:E; simpl; [done|]. intros _. lia.
  - subst v. simpl. intros Hn. destruct (z >? 0) eqn:E; [lia|done].
  - subst v. simpl. intros Hpos. destruct (z >? 0) eqn:E; [done|lia].
Qed.

(** ** The bookkeeping invariant *)

Lemma rule_search (h : oid → Classifier Rule F) (r : Rule) ms :
  Forall (λ x, rule (h x) ≠ r) ms ∨
  ∃ l1 m l2, ms = l1 ++ m :: l2 ∧ Forall (λ x, rule (h x) ≠ r) l1 ∧ rule (h m) = r.
Proof.
  induction ms as [|x ms IH]; [by left|].
  destruct (decide (rule (h x) = r)) as [Hx|Hx].
  - right. exists [], x, ms. by repeat split.
  - destruct IH as [Hall|(l1 & m & l2 & -> & Hl1 & Hm)].
    + left. by constructor.
    + right. exists (x :: l1), m, l2. repeat split; [|done]. by constructor.
Qed.

Lemma run_op_preserves w op :
  pop_inv w → exact_pre op w → ∃ w', run_op op w = Ok tt w' ∧ pop_inv w'.
Proof.
  intros Hinv Hpre. destruct op as [c l|c l|c n l|a b l|c|c l]; simpl in *.
  - destruct Hpre as [Hni Hn]. eexists. split; [apply _atomic_add_new_run|].
    by apply pop_inv_append.
  - destruct (rule_search (heap w) (rule (heap w c)) (members (population w)))
      as [Hall|(l1 & m & l2 & Hms & Hl1 & Hm)].
    + rewrite insert_run_new by done.
      eexists. split; [apply _atomic_add_new_run|].
      apply pop_inv_append; [done| |done].
      intros Hin. rewrite Forall_forall in Hall. by apply (Hall c).
    + eexists. split; [by eapply insert_run_absorb|].
      assert (m ∈ members (population w)) as Hin.
      { rewrite Hms. apply elem_of_app. right. apply elem_of_cons. by left. }
      pose proof (inv_positive _ Hinv m Hin).
      apply pop_inv_set_numerosity; [done|done|lia|lia].
  - destruct Hpre as [Hin Hn]. eexists. split; [by apply duplicate_run|].
    pose proof (inv_positive _ Hinv c Hin).
    apply pop_inv_set_numerosity; [done|done|lia|lia].
  - destruct Hpre as (Ha & Hb & Hne).
    destruct (replace_run a b l w Hinv Ha Hb) as (ms' & Hrm & ->).
    eexists. split; [done|].
    destruct (list_remove_NoDup a _ (inv_distinct _ Hinv) Ha)
      as (l' & Hrm' & _ & _ & _ & Hkeep & _).
    rewrite Hrm in Hrm'. injection Hrm' as <-.
    pose proof (inv_positive _ Hinv a Ha).
    pose proof (inv_positive _ Hinv b Hb).
    pose proof (pop_inv_removed w a ms' (operations_record (population w))
                  Hinv Ha Hrm) as Hinv1.
    refine (pop_inv_set_numerosity _ b _ _ _ Hinv1 _ _ _); simpl.
    + apply Hkeep; [done|]. by intros ->.
    + lia.
    + lia.
  - pose proof (inv_positive _ Hinv c Hpre).
    destruct (decide (1 < numerosity (heap w c))) as [Hgt|Hle].
    + eexists. split; [by apply delete_run_dec|].
      apply pop_inv_set_numerosity; [done|done|lia|lia].
    + assert (numerosity (heap w c) = 1) as H1 by lia.
      destruct (delete_run_last c w Hinv Hpre H1) as (ms' & Hrm & ->).
      eexists. split; [done|]. rewrite <- H1. by apply pop_inv_removed.
  - destruct (remove_run c l w Hinv Hpre) as (ms' & Hrm & ->).
    eexists. split; [done|]. by apply pop_inv_removed.
Qed.

Lemma reachable_pop_inv w : reachable exact_pre w → pop_inv w.
Proof.
  induction 1 as [h v p k Hinit|w op _ IH Hpre].
  - apply __init___inv in Hinit as (Hms & Hnm & _).
    constructor; simpl; rewrite Hms; [by rewrite Hnm| |constructor].
    intros c Hc. by apply elem_of_nil in Hc.
  - destruct (run_op_preserves w op IH Hpre) as (w' & -> & Hinv'). done.
Qed.

(** C1, as the code has it: in every state reached from a freshly
    constructed population by [add], [insert], [duplicate], [replace],
    [delete] and [remove], where the arguments of the last four are
    members, the count of [duplicate] is at least 1, a classifier handed to
    [add] or [insert] has numerosity at least 1, [add] is given an object
    that is not yet a member and [replace] two different objects,
    [num_micros] is the sum of the numerosities of the members. *)
Theorem num_micros_is_sum_of_numerosities (w : World) :
  reachable exact_pre w →
  num_micros (population w) = micro_total (heap w) (members (population w)).
Proof. intros Hr. apply inv_micros. by apply reachable_pop_inv. Qed.

(** What one [delete] of a member leaves behind. *)
Lemma delete_effects c w :
  pop_inv w → c ∈ members (population w) →
  ∃ w',
    delete c w = Ok tt w' ∧ pop_inv w' ∧
    num_micros (population w') = num_micros (population w) - 1 ∧
    max_micros (population w') = max_micros (population w) ∧
    recorder_get (operations_record (population w')) "deletion" =
      recorder_get (operations_record (population w)) "deletion" + 1 ∧
    (∀ x, x ∈ members (population w') → x ∈ members (population w)) ∧
    (∀ x, fitness (heap w' x) = fitness (heap w x) ∧
          action_set_size (heap w' x) = action_set_size (heap w x)).
Proof.
  intros Hinv Hin.
  destruct (run_op_preserves w (OpDelete c) Hinv Hin) as (w' & Hrun & Hinv').
  simpl in Hrun. exists w'. split; [done|]. split; [done|].
  pose proof (inv_positive _ Hinv c Hin) as Hpos.
  destruct (decide (1 < numerosity (heap w c))) as [Hgt|Hle].
  - rewrite delete_run_dec in Hrun by done. injection Hrun as <-. simpl.
    split; [done|]. split; [done|]. split; [by rewrite recorded_get_same|].
    split; [done|]. intros x. destruct (decide (c = x)) as [->|Hne].
    + by rewrite fn_lookup_insert.
    + by rewrite fn_lookup_insert_ne.
  - assert (numerosity (heap w c) = 1) as H1 by lia.
    destruct (delete_run_last c w Hinv Hin H1) as (ms' & Hrm & Hrun').
    rewrite Hrun' in Hrun. injection Hrun as <-. simpl.
    split; [done|]. split; [done|]. split; [by rewrite recorded_get_same|].
    split; [|done].
    destruct (list_remove_NoDup c _ (inv_distinct _ Hinv) Hin)
      as (l' & Hrm' & _ & _ & Hsub & _).
    rewrite Hrm in Hrm'. by injection Hrm' as <-.
Qed.

Lemma pop_inv_ext w w1 :
  heap w1 = heap w → population w1 = population w → pop_inv w → pop_inv w1.
Proof. intros Hh Hp [Hm Hpos Hd]. constructor; rewrite ?Hh, Hp; done. Qed.

Lemma uniform_world_pop_inv (r : Rule) n f e a ms mm :
  1 ≤ n → NoDup ms →
  pop_inv (uniform_world r n f e a ms (n * Z.of_nat (length ms)) mm).
Proof.
  intros Hn Hnd. constructor; simpl; [|done|done].
  clear Hnd. induction ms as [|c ms IH]; simpl; [lia|].
  simpl in IH. rewrite <- IH. lia.
Qed.

(** ** Further properties of the operations *)

(** X1: [duplicate] of a member with a count of at least 1 returns; the
    numerosity of the member and [num_micros] have grown by the count, the
    rule, fitness, experience and action-set size of the member are as
    they were, no other object and no member has changed, and the count is
    recorded under the label given.  With a count below 1 it raises
    [AssertionError] and nothing has changed. *)
Theorem duplicate_adds_copies (w : World) (c : oid) (n : Z) (label : option string) :
  c ∈ members (population w) →
  (1 ≤ n →
   ∃ w',
     duplicate c n label w = Ok tt w' ∧
     numerosity (heap w' c) = numerosity (heap w c) + n ∧
     rule (heap w' c) = rule (heap w c) ∧
     fitness (heap w' c) = fitness (heap w c) ∧
     experience (heap w' c) = experience (heap w c) ∧
     action_set_size (heap w' c) = action_set_size (heap w c) ∧
     (∀ x, x ≠ c → heap w' x = heap w x) ∧
     members (population w') = members (population w) ∧
     num_micros (population w') = num_micros (population w) + n ∧
     operations_record (population w')
       = recorded label n (operations_record (population w))) ∧
  (n < 1 → duplicate c n label w = Raise AssertionError w).
Proof.
  intros Hin. split.
  - intros Hn. eexists. split; [by apply duplicate_run|]. simpl.
    rewrite fn_lookup_insert. simpl. do 5 (split; [done|]). split; [|done].
    intros x Hx. by rewrite fn_lookup_insert_ne.
  - intros Hn. unfold duplicate.
    rewrite verify_membership_pass by (repeat constructor; done).
    unfold bind, py_assert. destruct (n >=? 1) eqn:E; [lia|done].
Qed.

(** X2: on a population that satisfies its invariants, [remove] of a
    member returns; the member is gone, the other members stay, the macro
    count is one less, [num_micros] has dropped by the numerosity of the
    member, no classifier has changed, and that numerosity is recorded
    under the label given. *)
Theorem remove_takes_out_the_macro (w : World) (c : oid) (label : option string) :
  pop_inv w → c ∈ members (population w) →
  ∃ w',
    remove c label w = Ok tt w' ∧
    (c ∉ members (population w')) ∧
    (∀ x, x ≠ c → x ∈ members (population w') ↔ x ∈ members (population w)) ∧
    S (num_macros w') = num_macros w ∧
    num_micros (population w') = num_micros (population w) - numerosity (heap w c) ∧
    heap w' = heap w ∧
    operations_record (population w')
      = recorded label (numerosity (heap w c)) (operations_record (population w)).
Proof.
  intros Hinv Hin.
  destruct (remove_run c label w Hinv Hin) as (ms' & Hrm & ->).
  destruct (list_remove_NoDup c _ (inv_distinct _ Hinv) Hin)
    as (l' & Hrm' & Hni & _ & Hsub & Hkeep & Hlen & _).
  rewrite Hrm in Hrm'. injection Hrm' as <-.
  eexists. split; [done|]. simpl. split; [done|]. split.
  - intros x Hx. split; [apply Hsub|]. intros Hxin. by apply Hkeep.
  - by repeat split.
Qed.

Lemma list_remove_last x l : x ∉ l → list_remove x (l ++ [x]) = Some l.
Proof.
  induction l as [|y l IH]; intros Hni; simpl.
  - by rewrite decide_True.
  - apply not_elem_of_cons in Hni as [Hne Hni].
    rewrite decide_False by done. by rewrite IH.
Qed.

(** X3: [add] of an object that is not a member, followed by [remove] of
    it, gives back the members, [num_micros], [max_micros] and every
    classifier as they were (only the recorder remembers). *)
Theorem add_then_remove_restores (w : World) (c : oid) (l1 l2 : option string) :
  c ∉ members (population w) → 0 ≤ num_micros (population w) →
  ∃ w1 w2,
    add c l1 w = Ok tt w1 ∧ remove c l2 w1 = Ok tt w2 ∧
    heap w2 = heap w ∧
    members (population w2) = members (population w) ∧
    num_micros (population w2) = num_micros (population w) ∧
    max_micros (population w2) = max_micros (population w).
Proof.
  intros Hni Hnm. eexists _, _. split; [apply _atomic_add_new_run|].
  split.
  - unfold remove. rewrite verify_membership_pass.
    + apply _atomic_remove_whole_run; simpl; [by apply list_remove_last|lia].
    + repeat constructor. simpl. apply elem_of_app. right.
      by apply list_elem_of_singleton.
  - simpl. repeat split. lia.
Qed.

(** X4: on a member of numerosity at least 1, in a population whose
    [num_micros] is not negative, [duplicate] by one copy returns with the
    numerosity of the member one higher, and [delete] after it gives back
    every classifier, the members and [num_micros] as they were. *)
Theorem duplicate_then_delete_restores (w : World) (c : oid) (label : option string) :
  c ∈ members (population w) → 1 ≤ numerosity (heap w c) →
  0 ≤ num_micros (population w) →
  ∃ w1 w2,
    duplicate c 1 label w = Ok tt w1 ∧ delete c w1 = Ok tt w2 ∧
    numerosity (heap w1 c) = numerosity (heap w c) + 1 ∧
    num_micros (population w1) = num_micros (population w) + 1 ∧
    (∀ x, heap w2 x = heap w x) ∧
    members (population w2) = members (population w) ∧
    num_micros (population w2) = num_micros (population w).
Proof.
  intros Hin Hn Hnm. eexists _, _.
  split; [by apply duplicate_run|]. split.
  - unfold delete. rewrite verify_membership_pass by (repeat constructor; done).
    apply _atomic_remove_single_copy_dec; simpl; [|lia].
    rewrite fn_lookup_insert. simpl. lia.
  - simpl. split; [by rewrite fn_lookup_insert|]. split; [done|].
    split; [|split; [done|lia]].
    intros x. destruct (decide (c = x)) as [<-|Hne].
    + rewrite !fn_lookup_insert. destruct (heap w c) as [r n f e a]. simpl.
      unfold with_numerosity. simpl. f_equal. lia.
    + rewrite fn_lookup_insert_ne by done. by rewrite fn_lookup_insert_ne.
Qed.

(** The frame of every operation, built up from its parts. *)

Lemma frame_refl w : frame w w.
Proof. unfold frame. repeat split; lia. Qed.

Lemma frame_trans w1 w2 w3 : frame w1 w2 → frame w2 w3 → frame w1 w3.
Proof.
  intros (Hm & Hr & Ha & Hl) (Hm' & Hr' & Ha' & Hl').
  split; [congruence|]. split; [congruence|]. split.
  - intros o. destruct (Ha o) as (? & ? & ? & ?), (Ha' o) as (? & ? & ? & ?).
    repeat split; congruence.
  - intros l. specialize (Hl l). specialize (Hl' l). lia.
Qed.

Lemma keeps_frame_ret {A} (a : A) : keeps_frame (ret a).
Proof. intros w. apply frame_refl. Qed.

Lemma keeps_frame_raise {A} e : keeps_frame (raise (A := A) e).
Proof. intros w. apply frame_refl. Qed.

Lemma keeps_frame_bind {A B} (m : M A) (k : A → M B) :
  keeps_frame m → (∀ a, keeps_frame (k a)) → keeps_frame (bind m k).
Proof.
  intros Hm Hk w. unfold bind. specialize (Hm w).
  destruct (m w) as [a w1|e w1]; simpl in *; [|done].
  eapply frame_trans; [exact Hm|apply Hk].
Qed.

Lemma keeps_frame_py_assert b : keeps_frame (py_assert b).
Proof. destruct b; [apply keeps_frame_ret|apply keeps_frame_raise]. Qed.

Lemma keeps_frame_set_numerosity c n : keeps_frame (set_numerosity c n).
Proof.
  intros w. unfold frame. simpl. repeat split; try lia;
    (destruct (decide (c = o)) as [->|Hne];
     [by rewrite fn_lookup_insert|by rewrite fn_lookup_insert_ne]).
Qed.

Lemma keeps_frame_set_members l : keeps_frame (set_members l).
Proof. intros w. unfold frame. simpl. repeat split; lia. Qed.

Lemma keeps_frame_set_num_micros n : keeps_frame (set_num_micros n).
Proof. intros w. unfold frame. simpl. repeat split; lia. Qed.

Lemma keeps_frame_recorder_add label n : 0 ≤ n → keeps_frame (recorder_add label n).
Proof.
  intros Hn w. unfold frame. simpl. repeat split. intros l.
  unfold recorder_get at 2. destruct (decide (label = l)) as [->|Hne].
  - rewrite lookup_insert_eq. simpl. lia.
  - rewrite lookup_insert_ne by done. unfold recorder_get. lia.
Qed.

Lemma keeps_frame_record_operation {A} (m : M A) label :
  keeps_frame m → keeps_frame (record_operation m label).
Proof.
  intros Hm. unfold record_operation.
  apply keeps_frame_bind; [intros w; apply frame_refl|]. intros before.
  apply keeps_frame_bind; [done|]. intros result.
  apply keeps_frame_bind; [intros w; apply frame_refl|]. intros after.
  destruct label as [l|]; [|apply keeps_frame_ret].
  apply keeps_frame_bind; [|intros; apply keeps_frame_ret].
  apply keeps_frame_recorder_add. lia.
Qed.

Lemma keeps_frame__inc_num_micros n : keeps_frame (_inc_num_micros n).
Proof.
  apply keeps_frame_bind; [intros w; apply frame_refl|].
  intros. apply keeps_frame_set_num_micros.
Qed.

Lemma keeps_frame__dec_num_micros n : keeps_frame (_dec_num_micros n).
Proof.
  apply keeps_frame_bind; [intros w; apply frame_refl|]. intros.
  apply keeps_frame_bind; [apply keeps_frame_set_num_micros|]. intros.
  apply keeps_frame_bind; [intros w; apply frame_refl|]. intros.
  apply keeps_frame_py_assert.
Qed.

Lemma keeps_frame_members_remove c : keeps_frame (members_remove c).
Proof.
  apply keeps_frame_bind; [intros w; apply frame_refl|]. intros ms.
  destruct (list_remove c ms); [apply keeps_frame_set_members|apply keeps_frame_raise].
Qed.

Lemma keeps_frame__atomic_add_new c label : keeps_frame (_atomic_add_new c label).
Proof.
  apply keeps_frame_record_operation.
  apply keeps_frame_bind.
  - apply keeps_frame_bind; [intros w; apply frame_refl|].
    intros. apply keeps_frame_set_members.
  - intros. apply keeps_frame_bind; [intros w; apply frame_refl|].
    intros. apply keeps_frame__inc_num_micros.
Qed.

Lemma keeps_frame__atomic_copy_existing c n label :
  keeps_frame (_atomic_copy_existing c n label).
Proof.
  apply keeps_frame_record_operation.
  apply keeps_frame_bind; [apply keeps_frame_py_assert|]. intros.
  apply keeps_frame_bind; [intros w; apply frame_refl|]. intros.
  apply keeps_frame_bind; [apply keeps_frame_set_numerosity|]. intros.
  apply keeps_frame__inc_num_micros.
Qed.

Lemma keeps_frame__atomic_remove_whole c label :
  keeps_frame (_atomic_remove_whole c label).
Proof.
  apply keeps_frame_record_operation.
  apply keeps_frame_bind; [apply keeps_frame_members_remove|]. intros.
  apply keeps_frame_bind; [intros w; apply frame_refl|]. intros.
  apply keeps_frame__dec_num_micros.
Qed.

Lemma keeps_frame__atomic_remove_single_copy c label :
  keeps_frame (_atomic_remove_single_copy c label).
Proof.
  apply keeps_frame_record_operation.
  apply keeps_frame_bind; [intros w; apply frame_refl|]. intros n.
  apply keeps_frame_bind; [|intros; apply keeps_frame__dec_num_micros].
  destruct (n >? 1); [apply keeps_frame_set_numerosity|apply keeps_frame_members_remove].
Qed.

Lemma keeps_frame_verify_membership {A} cs (m : M A) :
  keeps_frame m → keeps_frame (verify_membership cs m).
Proof.
  intros Hm. apply keeps_frame_bind; [intros w; apply frame_refl|]. intros ms.
  destruct (forallb _ cs); [done|apply keeps_frame_raise].
Qed.

Lemma keeps_frame__try_to_absorb_loop c ms :
  keeps_frame (_try_to_absorb_loop c ms).
Proof.
  induction ms as [|m ms IH]; simpl; [apply keeps_frame_ret|].
  apply keeps_frame_bind; [intros w; apply frame_refl|]. intros rm.
  apply keeps_frame_bind; [intros w; apply frame_refl|]. intros rc.
  destruct (bool_decide (rm = rc)); [|done].
  apply keeps_frame_bind; [|intros; apply keeps_frame_ret].
  apply keeps_frame_bind; [intros w; apply frame_refl|]. intros.
  apply keeps_frame__atomic_copy_existing.
Qed.

Lemma keeps_frame_run_op op : keeps_frame (run_op op).
Proof.
  destruct op as [c l|c l|c n l|a b l|c|c l]; simpl.
  - apply keeps_frame__atomic_add_new.
  - apply keeps_frame_bind.
    + apply keeps_frame_bind; [intros w; apply frame_refl|].
      intros. apply keeps_frame__try_to_absorb_loop.
    + intros []; simpl; [apply keeps_frame_ret|apply keeps_frame__atomic_add_new].
  - apply keeps_frame_verify_membership.
    apply keeps_frame_bind; [apply keeps_frame_py_assert|]. intros.
    apply keeps_frame__atomic_copy_existing.
  - apply keeps_frame_verify_membership.
    apply keeps_frame_bind; [intros w; apply frame_refl|]. intros.
    apply keeps_frame_bind; [apply keeps_frame__atomic_remove_whole|]. intros.
    apply keeps_frame__atomic_copy_existing.
  - apply keeps_frame_verify_membership, keeps_frame__atomic_remove_single_copy.
  - apply keeps_frame_verify_membership, keeps_frame__atomic_remove_whole.
Qed.

(** X5: whatever the state and the arguments, and whether it returns or
    raises, an operation of the population leaves [max_micros] and the
    random generator as they were, and changes no attribute of any
    classifier other than its numerosity. *)
Theorem operations_touch_only_numerosity (op : Op) (w : World) :
  let w' := final_world (run_op op w) in
  max_micros (population w') = max_micros (population w) ∧
  rng_calls w' = rng_calls w ∧
  ∀ o, rule (heap w' o) = rule (heap w o) ∧
       fitness (heap w' o) = fitness (heap w o) ∧
       experience (heap w' o) = experience (heap w o) ∧
       action_set_size (heap w' o) = action_set_size (heap w o).
Proof.
  intros w'. destruct (keeps_frame_run_op op w) as (Hm & Hr & Ha & _).
  by repeat split; try apply Ha.
Qed.

(** X6: whatever the state and the arguments, and whether it returns or
    raises, an operation of the population lowers no counter of the
    recorder. *)
Theorem recorder_never_decreases (op : Op) (w : World) (label : string) :
  recorder_get (operations_record (population w)) label
  ≤ recorder_get (operations_record (population (final_world (run_op op w)))) label.
Proof. by destruct (keeps_frame_run_op op w) as (_ & _ & _ & Hl). Qed.

Lemma _try_to_absorb_loop_first_raise c l1 m l2 w :
  Forall (λ x, rule (heap w x) ≠ rule (heap w c)) l1 →
  rule (heap w m) = rule (heap w c) →
  numerosity (heap w c) < 1 →
  _try_to_absorb_loop c (l1 ++ m :: l2) w = Raise AssertionError w.
Proof.
  intros Hl1 Hm Hn. induction Hl1 as [|x l1 Hx _ IH]; simpl.
  - unfold bind at 1, get_rule. unfold bind at 1.
    rewrite bool_decide_eq_true_2 by done.
    unfold bind at 1, _absorb. unfold bind at 1, get_numerosity.
    by rewrite _atomic_copy_existing_raise.
  - unfold bind at 1, get_rule. unfold bind at 1.
    rewrite bool_decide_eq_false_2 by done. exact IH.
Qed.

(** X7: if no two members have the same rule, none have after [insert],
    whatever classifier is inserted and whether the call returns or
    raises. *)
Theorem insert_keeps_rules_distinct (w : World) (c : oid) (label : option string) :
  NoDup ((λ m, rule (heap w m)) <$> members (population w)) →
  let w' := final_world (insert c label w) in
  NoDup ((λ m, rule (heap w' m)) <$> members (population w')).
Proof.
  intros Hnd w'.
  assert (∀ o, rule (heap w' o) = rule (heap w o)) as Hr.
  { intros o. destruct (keeps_frame_run_op (OpInsert c label) w)
      as (_ & _ & Ha & _). by destruct (Ha o). }
  rewrite (list_fmap_ext _ (λ m, rule (heap w m))) by (intros; apply Hr).
  clear Hr. subst w'.
  destruct (rule_search (heap w) (rule (heap w c)) (members (population w)))
    as [Hall|(l1 & m & l2 & Hms & Hl1 & Hm)].
  - rewrite insert_run_new by done. unfold add.
    rewrite _atomic_add_new_run. simpl. rewrite fmap_app.
    apply NoDup_app. split; [done|]. split; [|apply NoDup_singleton].
    intros r (x & -> & Hx)%list_elem_of_fmap Hin.
    apply list_elem_of_singleton in Hin.
    rewrite Forall_forall in Hall. by apply (Hall x).
  - destruct (decide (1 ≤ numerosity (heap w c))) as [Hn|Hn].
    + by rewrite (insert_run_absorb c label l1 m l2 w).
    + unfold insert, _try_to_absorb. unfold bind at 1.
      unfold bind at 1, get_members. rewrite Hms at 1.
      rewrite _try_to_absorb_loop_first_raise; [done..|lia].
Qed.

Lemma reachable_max_micros pre w :
  reachable pre w → 0 < max_micros (population w).
Proof.
  induction 1 as [h v p k Hinit|w op _ IH _].
  - by apply __init___inv in Hinit as (_ & _ & _ & Hpos & _).
  - destruct (keeps_frame_run_op op w) as (-> & _). done.
Qed.

(** X8: in every state reached from a freshly constructed population by
    operations whose preconditions hold ([exact_pre]), every member has
    numerosity at least 1, the members are distinct objects, [num_micros]
    is not negative and [max_micros] is positive. *)
Theorem reachable_population_is_well_formed (w : World) :
  reachable exact_pre w →
  (∀ c, c ∈ members (population w) → 1 ≤ numerosity (heap w c)) ∧
  NoDup (members (population w)) ∧
  0 ≤ num_micros (population w) ∧
  0 < max_micros (population w).
Proof.
  intros Hr. pose proof (reachable_pop_inv w Hr) as [Hm Hp Hd].
  split; [done|]. split; [done|]. split.
  - rewrite Hm. by apply micro_total_nonneg.
  - by apply (reachable_max_micros exact_pre).
Qed.

(** X9: in such a state, an operation whose precondition holds returns
    without raising. *)
Theorem operations_return_when_preconditions_hold (w : World) (op : Op) :
  reachable exact_pre w → exact_pre op w →
  ∃ w', run_op op w = Ok tt w'.
Proof.
  intros Hr Hpre.
  destruct (run_op_preserves w op (reachable_pop_inv w Hr) Hpre) as (w' & Hrun & _).
  by exists w'.
Qed.

End PopulationFacts.

(** * Facts about the deletion policy *)

(** ** The scan of the roulette wheel, whatever the arithmetic *)

Section ScanFacts.

Context {G : Type} `{!Arith G}.

Lemma roulette_scan_member (ms : list oid) (votes : list G) acc cp c :
  roulette_scan (zip ms votes) acc cp = Some c → c ∈ ms.
Proof.
  revert votes acc. induction ms as [|m ms IH]; intros [|v votes] acc;
    cbn [roulette_scan zip_with]; try done.
  destruct (f_ltb cp (f_add acc v)).
  - intros [= ->]. apply elem_of_cons. by left.
  - intros Hscan. apply elem_of_cons. right. by eapply IH.
Qed.



End ScanFacts.

(** ** The scan over exact votes *)







(** ** The votes and the selection, whatever the arithmetic *)

Section DeletionFacts.

Context `{!Arith F}.
Variables theta_del delta : F.
Variable rand : nat → F.
Variable calc_summary_stat_mean_fitness :
  (oid → Classifier Rule F) → list oid → exn + F.

(** The vote computation, step by step. *)
Lemma _calc_deletion_vote_run c mean w :
  _calc_deletion_vote theta_del delta c mean w =
  match of_int (numerosity (heap w c)) with
  | inl e => Raise e w
  | inr n =>
      match f_div (fitness (heap w c)) n with
      | inl e => Raise e w
      | inr ratio =>
          if f_ltb theta_del (experience (heap w c)) &&
             f_ltb ratio (f_mul delta mean)
          then match f_div mean ratio with
               | inl e => Raise e w
               | inr factor =>
                   Ok (f_mul (f_mul (action_set_size (heap w c)) n) factor) w
               end
          else Ok (f_mul (action_set_size (heap w c)) n) w
      end
  end.
Proof.
  unfold _calc_deletion_vote, get_classifier, lift, bind, ret.
  destruct (of_int _) as [e|n]; [done|].
  destruct (f_div (fitness _) n) as [e|ratio]; [done|].
  destruct (_ && _); [|done].
  by destruct (f_div mean ratio).
Qed.


(** The votes are computed without touching the state. *)
Lemma _calc_deletion_vote_frame c mean w :
  final_world (_calc_deletion_vote theta_del delta c mean w) = w.
Proof.
  rewrite _calc_deletion_vote_run.
  destruct (of_int _) as [e|n]; [done|].
  destruct (f_div (fitness _) n) as [e|ratio]; [done|].
  destruct (_ && _); [|done].
  by destruct (f_div mean ratio).
Qed.

Lemma calc_votes_frame ms mean w :
  final_world (calc_votes theta_del delta ms mean w) = w.
Proof.
  induction ms as [|c ms IH]; [done|]. cbn [calc_votes]. unfold bind at 1.
  pose proof (_calc_deletion_vote_frame c mean w) as Hv.
  destruct (_calc_deletion_vote _ _ c mean w) as [v w1|e w1]; simpl in Hv;
    subst w1; [|done].
  unfold bind at 1.
  destruct (calc_votes _ _ ms mean w) as [vs w2|e w2]; simpl in IH; by subst w2.
Qed.




(** The roulette wheel reads and never writes. *)
Lemma select_outcome (w : World) :
  match XCSRouletteWheelDeletion_select_for_deletion theta_del delta rand
      calc_summary_stat_mean_fitness w with
  | Ok selected w' =>
      heap w' = heap w ∧ population w' = population w ∧
      rng_calls w' = S (rng_calls w) ∧
      ∀ c, selected = Some c → c ∈ members (population w)
  | Raise e w' => w' = w
  end.
Proof.
  unfold XCSRouletteWheelDeletion_select_for_deletion, calc_summary_stat.
  unfold bind at 1, lift.
  destruct (calc_summary_stat_mean_fitness _ _) as [e|mean]; [done|].
  unfold bind at 1, get_members. unfold bind at 1.
  pose proof (calc_votes_frame (members (population w)) mean w) as Hv.
  destruct (calc_votes _ _ _ _ w) as [votes w1|e w1]; simpl in Hv; subst w1;
    [|done].
  unfold bind, rng_rand, ret. simpl. repeat split.
  intros c Hc. by apply roulette_scan_member in Hc.
Qed.

(** ** The enforcement loop, for any selection strategy *)

Section Enforcement.

Context `{strategy : DeletionStrategyABC}.

(** [ready] is whatever the strategy needs of a state to select from it. *)
Variable ready : World → Prop.

(** The contract of [_select_for_deletion]: on a population over capacity
    it returns a member, leaves the classifiers and the population as they
    are, and deleting a copy of that member keeps the state [ready]. *)
Hypothesis select_member :
  ∀ w, pop_inv w → ready w →
    max_micros (population w) < num_micros (population w) →
    ∃ c w1,
      _select_for_deletion w = Ok (Some c) w1 ∧
      c ∈ members (population w) ∧
      heap w1 = heap w ∧ population w1 = population w ∧
      ∀ w2, delete c w1 = Ok tt w2 → ready w2.

Lemma deletion_rounds_run n w :
  pop_inv w → ready w →
  num_micros (population w) = max_micros (population w) + Z.of_nat n →
  ∃ w',
    deletion_rounds n w = Ok tt w' ∧ pop_inv w' ∧ ready w' ∧
    num_micros (population w') = max_micros (population w') ∧
    max_micros (population w') = max_micros (population w) ∧
    recorder_get (operations_record (population w')) "deletion" =
      recorder_get (operations_record (population w)) "deletion" + Z.of_nat n.
Proof.
  revert w. induction n as [|n IH]; intros w Hinv Hready Hnm.
  - exists w. simpl. do 3 (split; [done|]). split; [lia|]. split; [done|lia].
  - destruct (select_member w Hinv Hready) as (c & w1 & Hsel & Hin & Hh & Hp & Hkeep);
      [lia|].
    assert (pop_inv w1) as Hinv1 by by apply (pop_inv_ext w).
    destruct (delete_effects c w1 Hinv1) as (w2 & Hdel & Hinv2 & Hnm2 & Hmm2 & Hrec2 & _);
      [by rewrite Hp|].
    destruct (IH w2 Hinv2 (Hkeep w2 Hdel)) as (w' & Hrun & Hinv' & Hready' & Hnm' & Hmm' & Hrec');
      [rewrite Hnm2, Hmm2, Hp; lia|].
    exists w'. simpl. unfold bind at 1, deletion_round. unfold bind at 1.
    rewrite Hsel. simpl. rewrite Hdel. do 4 (split; [done|]). split.
    + rewrite Hmm', Hmm2, Hp. done.
    + rewrite Hrec', Hrec2, Hp. lia.
Qed.

End Enforcement.

(** What [__call__] does with the outcome of its rounds. *)
Lemma __call___within `{strategy : DeletionStrategyABC} w :
  num_micros (population w) ≤ max_micros (population w) →
  __call__ w = Ok tt w.
Proof.
  intros Hle.
  unfold __call__, get_num_micros, get_max_micros.
  unfold bind at 1. unfold bind at 1.
  destruct (_ >? _) eqn:E; [lia|].
  unfold bind, ret, py_assert.
  destruct (_ <=? _) eqn:E'; [done|lia].
Qed.

Lemma __call___over `{strategy : DeletionStrategyABC} w :
  max_micros (population w) < num_micros (population w) →
  __call__ w =
  match deletion_rounds
          (Z.to_nat (num_micros (population w) - max_micros (population w))) w with
  | Ok _ w' =>
      if num_micros (population w') <=? max_micros (population w')
      then Ok tt w' else Raise AssertionError w'
  | Raise e w' => Raise e w'
  end.
Proof.
  intros Hover.
  unfold __call__, _perform_deletions, get_num_micros, get_max_micros.
  unfold bind at 1. unfold bind at 1.
  destruct (_ >? _) eqn:E; [|lia].
  unfold bind at 1. unfold bind at 1. unfold bind at 1.
  unfold bind at 1, py_assert.
  destruct (_ >=? 1) eqn:E'; [|lia].
  simpl. destruct (deletion_rounds _ w) as [[] w'|e w']; [|done].
  unfold bind. simpl. by destruct (_ <=? _).
Qed.

(** C2, as the code has it.  On a population within capacity the policy
    returns at once and changes nothing, whatever the state and the
    strategy.  On a population that satisfies its invariants and holds
    more than [max_micros] micros, for any strategy that keeps the
    contract of [_select_for_deletion] (it returns a member and leaves
    the classifiers and the population as they are, round after round),
    the policy returns after running exactly [num_micros - max_micros]
    rounds, each deleting one copy, with [num_micros = max_micros]; the
    count of the "deletion" label has grown by that number. *)
Theorem deletion_policy_enforces_capacity `{strategy : DeletionStrategyABC} :
  (∀ w, num_micros (population w) ≤ max_micros (population w) →
        __call__ w = Ok tt w) ∧
  (∀ ready : World → Prop,
     (∀ w, pop_inv w → ready w →
           max_micros (population w) < num_micros (population w) →
           ∃ c w1,
             _select_for_deletion w = Ok (Some c) w1 ∧
             c ∈ members (population w) ∧
             heap w1 = heap w ∧ population w1 = population w ∧
             ∀ w2, delete c w1 = Ok tt w2 → ready w2) →
     ∀ w, pop_inv w → ready w →
          max_micros (population w) < num_micros (population w) →
          ∃ w',
            __call__ w = Ok tt w' ∧
            deletion_rounds
              (Z.to_nat (num_micros (population w) - max_micros (population w))) w
              = Ok tt w' ∧
            num_micros (population w') = max_micros (population w') ∧
            max_micros (population w') = max_micros (population w) ∧
            recorder_get (operations_record (population w')) "deletion" =
              recorder_get (operations_record (population w)) "deletion"
              + (num_micros (population w) - max_micros (population w))).
Proof.
  split; [apply @__call___within|].
  intros ready Hcontract w Hinv Hready Hover.
  destruct (deletion_rounds_run ready Hcontract
              (Z.to_nat (num_micros (population w) - max_micros (population w)))
              w Hinv Hready)
    as (w' & Hrun & _ & _ & Hnm' & Hmm' & Hrec'); [lia|].
  exists w'. split; [|split; [done|]].
  - rewrite __call___over, Hrun by done.
    destruct (_ <=? _) eqn:E; [done|lia].
  - split; [done|]. split; [done|]. rewrite Hrec'. lia.
Qed.

(** ** The policy with the roulette wheel *)

Lemma deletion_rounds_S `{strategy : DeletionStrategyABC} n w :
  deletion_rounds (S n) w =
  match _select_for_deletion w with
  | Ok selected w1 =>
      match delete_selected selected w1 with
      | Ok _ w2 => deletion_rounds n w2
      | Raise e w2 => Raise e w2
      end
  | Raise e w1 => Raise e w1
  end.
Proof.
  cbn [deletion_rounds]. unfold bind, deletion_round. unfold bind.
  destruct (_select_for_deletion w); [|done].
  by destruct (delete_selected _ _) as [[]|].
Qed.

(** The rounds with the roulette wheel, whatever they meet: the
    population stays well formed, and every round that ends has deleted
    one copy. *)
Lemma roulette_rounds_outcome n w :
  pop_inv w →
  let r := deletion_rounds (H := XCSRouletteWheelDeletion theta_del delta rand
            calc_summary_stat_mean_fitness) n w in
  let w' := final_world r in
  pop_inv w' ∧
  max_micros (population w') = max_micros (population w) ∧
  num_micros (population w') ≤ num_micros (population w) ∧
  recorder_get (operations_record (population w')) "deletion" =
    recorder_get (operations_record (population w)) "deletion"
    + (num_micros (population w) - num_micros (population w')) ∧
  match r with
  | Ok _ _ => num_micros (population w') = num_micros (population w) - Z.of_nat n
  | Raise _ _ => num_micros (population w) - Z.of_nat n < num_micros (population w')
  end.
Proof.
  revert w. induction n as [|n IH]; intros w Hinv; cbv zeta.
  - simpl. split; [done|]. split; [done|]. lia.
  - rewrite deletion_rounds_S.
    cbn [_select_for_deletion XCSRouletteWheelDeletion].
    pose proof (select_outcome w) as Hsel.
    destruct (XCSRouletteWheelDeletion_select_for_deletion theta_del delta rand
                calc_summary_stat_mean_fitness w) as [selected w1|e w1].
    + destruct Hsel as (Hh & Hp & _ & Hmem).
      assert (pop_inv w1) as Hinv1 by by apply (pop_inv_ext w).
      destruct selected as [c|]; cbn [delete_selected].
      * destruct (delete_effects c w1 Hinv1) as (w2 & Hdel & Hinv2 & Hnm2 & Hmm2 & Hrec2 & _);
          [rewrite Hp; by apply Hmem|].
        rewrite Hdel.
        destruct (IH w2 Hinv2) as (Hinv' & Hmm' & Hle' & Hrec' & Hout).
        rewrite Hp in Hnm2, Hmm2, Hrec2.
        split; [done|]. split; [congruence|]. split; [lia|]. split; [lia|].
        destruct (deletion_rounds n w2); simpl in *; lia.
      * unfold raise. simpl. rewrite Hp. split; [done|]. split; [done|]. lia.
    + subst w1. simpl. split; [done|]. split; [done|]. lia.
Qed.

(** X10: whatever the arithmetic, the votes and the draws, the policy
    with the roulette wheel on a well-formed population over capacity
    either returns with [num_micros = max_micros], or raises with the
    population still over capacity; either way the population is well
    formed, [max_micros] is as it was, [num_micros] has not grown, and
    the "deletion" counter has grown by the number of copies deleted. *)
Theorem roulette_policy_keeps_invariants (w : World) :
  pop_inv w →
  max_micros (population w) < num_micros (population w) →
  let r := __call__ (H := XCSRouletteWheelDeletion theta_del delta rand
            calc_summary_stat_mean_fitness) w in
  let w' := final_world r in
  pop_inv w' ∧
  max_micros (population w') = max_micros (population w) ∧
  num_micros (population w') ≤ num_micros (population w) ∧
  recorder_get (operations_record (population w')) "deletion" =
    recorder_get (operations_record (population w)) "deletion"
    + (num_micros (population w) - num_micros (population w')) ∧
  match r with
  | Ok _ _ => num_micros (population w') = max_micros (population w')
  | Raise _ _ => max_micros (population w') < num_micros (population w')
  end.
Proof.
  intros Hinv Hover. cbv zeta. rewrite __call___over by done.
  destruct (roulette_rounds_outcome
              (Z.to_nat (num_micros (population w) - max_micros (population w)))
              w Hinv) as (Hinv' & Hmm' & Hle' & Hrec' & Hout).
  destruct (deletion_rounds _ w) as [[] w'|e w']; simpl in *.
  - destruct (_ <=? _) eqn:E; simpl; do 4 (split; [done|]); lia.
  - do 4 (split; [done|]). lia.
Qed.

(** X11: the roulette-wheel selection reads and never writes: when it
    returns, the classifiers and the population are as they were, one
    draw has been taken, and a classifier it returns is a member; when it
    raises, nothing at all has changed and no draw has been taken. *)
Theorem roulette_selection_reads_only (w : World) :
  match XCSRouletteWheelDeletion_select_for_deletion theta_del delta rand
      calc_summary_stat_mean_fitness w with
  | Ok selected w' =>
      heap w' = heap w ∧ population w' = population w ∧
      rng_calls w' = S (rng_calls w) ∧
      ∀ c, selected = Some c → c ∈ members (population w)
  | Raise e w' => w' = w
  end.
Proof. apply select_outcome. Qed.


End DeletionFacts.

(** * Facts about the action set *)

Section ActionSetFacts.

Context {Action : Type} `{EqDecision Action}.
Variable action : Classifier Rule F → Action.

Lemma _gen_action_set_loop_filter h match_set action_set a :
  _gen_action_set_loop action h match_set action_set a
  = action_set ++ filter (λ c, action (h c) = a) match_set.
Proof.
  revert action_set. induction match_set as [|c ms IH]; intros acc; simpl.
  - by rewrite app_nil_r.
  - rewrite filter_cons. destruct (decide (action (h c) = a)).
    + rewrite IH. by rewrite <- app_assoc.
    + apply IH.
Qed.

(** X19: the action set holds exactly the classifiers of the match set
    whose action is the given one, each as often and in the same order as
    in the match set; it has nothing in common with the action set of
    another action. *)
Theorem _gen_action_set_filters (h : oid → Classifier Rule F)
    (match_set : list oid) (a : Action) :
  _gen_action_set action h match_set a
    = filter (λ c, action (h c) = a) match_set ∧
  _gen_action_set action h match_set a `sublist_of` match_set ∧
  (∀ c, c ∈ _gen_action_set action h match_set a ↔
        c ∈ match_set ∧ action (h c) = a) ∧
  (∀ b c, b ≠ a → c ∈ _gen_action_set action h match_set a →
          c ∉ _gen_action_set action h match_set b).
Proof.
  assert (∀ b, _gen_action_set action h match_set b
               = filter (λ c, action (h c) = b) match_set) as Heq.
  { intros b. unfold _gen_action_set. by rewrite _gen_action_set_loop_filter. }
  split; [apply Heq|]. rewrite !Heq. split; [apply sublist_filter|]. split.
  - intros c. rewrite list_elem_of_filter. tauto.
  - intros b c Hne. rewrite Heq, !list_elem_of_filter.
    intros [Ha _] [Hb _]. congruence.
Qed.

End ActionSetFacts.

End WithRule.

(** * Facts about genotypes *)

Lemma Discrete_alleles_equal rtol (x y : Z) :
  _alleles_are_equal rtol (Discrete x) (Discrete y) = true ↔ x = y.
Proof.
  simpl. apply Z.eqb_eq.
Qed.

(** X16: two genotypes of int alleles are [==] exactly when the alleles of
    one are the first alleles of the other: alleles beyond the shorter
    genotype are not compared, and the lengths need not agree. *)
Theorem genotype_eq_iff_prefix (rtol : float) (xs ys : list Z) :
  __eq__ rtol (mkGenotype (Discrete <$> xs)) (mkGenotype (Discrete <$> ys)) = true ↔
  xs `prefix_of` ys ∨ ys `prefix_of` xs.
Proof.
  unfold __eq__. cbn [_alleles]. revert ys.
  induction xs as [|x xs IH]; intros [|y ys]; rewrite ?fmap_cons; cbn [__eq___loop].
  - split; [|done]. intros _. left. apply prefix_nil.
  - split; [|done]. intros _. left. apply prefix_nil.
  - split; [|done]. intros _. right. apply prefix_nil.
  - destruct (_alleles_are_equal rtol (Discrete x) (Discrete y)) eqn:E; cbn [negb].
    + apply Discrete_alleles_equal in E as ->. rewrite IH. split.
      * intros [?|?]; [left|right]; by apply prefix_cons.
      * intros [?%prefix_cons_inv_2|?%prefix_cons_inv_2]; [by left|by right].
    + split; [done|]. apply not_true_iff_false in E.
      intros [Hp%prefix_cons_inv_1|Hp%prefix_cons_inv_1]; exfalso; apply E;
        by apply Discrete_alleles_equal.
Qed.

Lemma py_index_Some len idx :
  - Z.of_nat len ≤ idx < Z.of_nat len →
  ∃ i, py_index len idx = Some i ∧ (i < len)%nat.
Proof.
  intros Hr. unfold py_index.
  destruct (idx <? 0) eqn:E.
  - exists (Z.to_nat (idx + Z.of_nat len)).
    destruct (0 <=? _) eqn:E1; [|lia]. destruct (_ <? Z.of_nat len) eqn:E2; [|lia].
    split; [done|lia].
  - exists (Z.to_nat idx).
    destruct (0 <=? _) eqn:E1; [|lia]. destruct (_ <? Z.of_nat len) eqn:E2; [|lia].
    split; [done|lia].
Qed.

Lemma py_index_None len idx :
  py_index len idx = None ↔ idx < - Z.of_nat len ∨ Z.of_nat len ≤ idx.
Proof.
  unfold py_index. destruct (idx <? 0) eqn:E;
    destruct (0 <=? _) eqn:E1; destruct (_ <? Z.of_nat len) eqn:E2; simpl;
    split; try done; try lia.
Qed.

Lemma py_index_lt len idx i : py_index len idx = Some i → (i < len)%nat.
Proof.
  unfold py_index. destruct (idx <? 0) eqn:E;
    destruct (0 <=? _) eqn:E1; destruct (_ <? Z.of_nat len) eqn:E2; simpl;
    intros [= <-]; lia.
Qed.

(** X17: an assignment at an index in range returns; reading the same
    index then gives the value assigned, the length is unchanged, and
    reading at an index that denotes another position, or none, gives what
    it gave before. *)
Theorem genotype_setitem_then_getitem (g : Genotype) (idx : Z) (value : allele) :
  - Z.of_nat (__len__ g) ≤ idx < Z.of_nat (__len__ g) →
  ∃ g',
    __setitem__ g idx value = inr g' ∧
    __getitem__ g' idx = inr value ∧
    __len__ g' = __len__ g ∧
    ∀ j, py_index (__len__ g) j ≠ py_index (__len__ g) idx →
         __getitem__ g' j = __getitem__ g j.
Proof.
  intros Hr. unfold __len__ in *.
  destruct (py_index_Some _ _ Hr) as (i & Hi & Hlt).
  unfold __setitem__, __getitem__. rewrite Hi. eexists. split; [done|]. simpl.
  rewrite length_insert, Hi. split; [by rewrite list_lookup_insert_eq|].
  split; [done|]. intros j Hj.
  destruct (py_index (length (_alleles g)) j) as [k|]; [|done].
  rewrite list_lookup_insert_ne; [done|]. intros ->. done.
Qed.

(** X18: reading and assigning raise [IndexError] exactly at the indices
    below [-len] or from [len] on; in particular every index is out of
    range for the empty genotype. *)
Theorem genotype_index_error_iff (g : Genotype) (idx : Z) (value : allele) :
  (__getitem__ g idx = inl IndexError ↔
   idx < - Z.of_nat (__len__ g) ∨ Z.of_nat (__len__ g) ≤ idx) ∧
  (__setitem__ g idx value = inl IndexError ↔
   idx < - Z.of_nat (__len__ g) ∨ Z.of_nat (__len__ g) ≤ idx).
Proof.
  unfold __getitem__, __setitem__, __len__. rewrite <- !py_index_None.
  destruct (py_index (length (_alleles g)) idx) as [i|] eqn:Hi; [|done].
  apply py_index_lt in Hi.
  destruct (lookup_lt_is_Some_2 (_alleles g) i Hi) as [a ->]. done.
Qed.

Arguments Ok {Rule F A} _ _.
Arguments Raise {Rule F A} _ _.

(** * The theorems at concrete populations *)

(** C1 as the spec words it fails: [replace] of a member by itself is
    allowed by the stated preconditions, removes the member and leaves
    [num_micros] as it was. *)
Lemma replace_by_itself_breaks_the_sum :
  let w0 := uniform_world 0%nat 1 1%float 0%float 1%float [] 0 5 in
  let w := final_world (run_op (OpReplace 0%nat 0%nat None)
                          (final_world (run_op (OpAdd 0%nat None) w0))) in
  reachable spec_pre w ∧
  members (population w) = [] ∧
  num_micros (population w) = 1 ∧
  micro_total (heap w) (members (population w)) = 0.
Proof.
  intros w0 w. split; [|by vm_compute].
  apply reachable_step; [apply reachable_step|].
  - by apply (reachable_init _ _ (PyInt 5)).
  - done.
  - split; compute_done.
Qed.

Lemma num_micros_is_sum_of_numerosities_witness :
  let w0 := uniform_world 0%nat 1 1%float 0%float 1%float [] 0 5 in
  let w := final_world (run_op (OpDelete 0%nat)
             (final_world (run_op (OpInsert 1%nat None)
                (final_world (run_op (OpAdd 0%nat None) w0))))) in
  reachable exact_pre w ∧
  num_micros (population w) = micro_total (heap w) (members (population w)).
Proof.
  intros w0 w.
  assert (reachable exact_pre w) as Hreach.
  { apply reachable_step; [apply reachable_step; [apply reachable_step|]|].
    - apply (reachable_init _ _ (PyInt 5)). reflexivity.
    - split; [compute_done|simpl; lia].
    - simpl. lia.
    - cbv beta iota zeta delta [exact_pre]. compute_done. }
  split; [exact Hreach|].
  exact (num_micros_is_sum_of_numerosities w Hreach).
Defined.

Lemma insert_absorbs_or_adds_witness :
  let w := uniform_world 0%nat 2 1%float 0%float 1%float [0%nat; 1%nat] 4 5 in
  let c := 2%nat in
  let label := Some "covering"%string in
  1 ≤ numerosity (heap w c) ∧
  (((∃ m, m ∈ members (population w) ∧ rule (heap w m) = rule (heap w c)) →
    ∃ m w',
      m ∈ members (population w) ∧ rule (heap w m) = rule (heap w c) ∧
      insert c label w = Ok tt w' ∧
      members (population w') = members (population w) ∧
      num_macros w' = num_macros w ∧
      numerosity (heap w' m) = numerosity (heap w m) + numerosity (heap w c) ∧
      num_micros (population w') = num_micros (population w) + numerosity (heap w c) ∧
      recorder_get (operations_record (population w')) "absorption" =
        recorder_get (operations_record (population w)) "absorption"
        + numerosity (heap w c)) ∧
   ((∀ m, m ∈ members (population w) → rule (heap w m) ≠ rule (heap w c)) →
    insert c label w = add c label w ∧
    ∃ w',
      add c label w = Ok tt w' ∧
      members (population w') = members (population w) ++ [c] ∧
      num_macros w' = S (num_macros w) ∧
      num_micros (population w') = num_micros (population w) + numerosity (heap w c))).
Proof.
  intros w c label.
  assert (1 ≤ numerosity (heap w c)) as Hn by by vm_compute.
  split; [exact Hn|]. exact (insert_absorbs_or_adds w c label Hn).
Defined.

Lemma replace_preserves_num_micros_witness :
  let w := uniform_world 0%nat 2 1%float 0%float 1%float [0%nat; 1%nat; 2%nat] 6 5 in
  pop_inv w ∧ 0%nat ∈ members (population w) ∧ 1%nat ∈ members (population w) ∧
  ∃ w',
    replace 0%nat 1%nat None w = Ok tt w' ∧
    num_micros (population w') = num_micros (population w) ∧
    (0%nat ∉ members (population w')) ∧
    numerosity (heap w' 1%nat) = numerosity (heap w 1%nat) + numerosity (heap w 0%nat).
Proof.
  intros w.
  assert (pop_inv w) as Hinv.
  { exact (uniform_world_pop_inv 0%nat 2 1%float 0%float 1%float [0%nat; 1%nat; 2%nat] 5
             ltac:(lia) ltac:(compute_done)). }
  assert (0%nat ∈ members (population w)) as H0 by compute_done.
  assert (1%nat ∈ members (population w)) as H1 by compute_done.
  split; [exact Hinv|]. split; [exact H0|]. split; [exact H1|].
  exact (replace_preserves_num_micros w 0%nat 1%nat None Hinv H0 H1).
Defined.

Lemma delete_removes_one_micro_witness :
  let w := uniform_world 0%nat 2 1%float 0%float 1%float [0%nat; 1%nat; 2%nat] 6 5 in
  let c := 1%nat in
  pop_inv w ∧ c ∈ members (population w) ∧
  ∃ w',
    delete c w = Ok tt w' ∧
    num_micros (population w') = num_micros (population w) - 1 ∧
    recorder_get (operations_record (population w')) "deletion" =
      recorder_get (operations_record (population w)) "deletion" + 1 ∧
    (1 < numerosity (heap w c) →
       numerosity (heap w' c) = numerosity (heap w c) - 1 ∧
       members (population w') = members (population w) ∧
       num_macros w' = num_macros w) ∧
    (numerosity (heap w c) = 1 →
       (c ∉ members (population w')) ∧
       S (num_macros w') = num_macros w ∧
       heap w' = heap w).
Proof.
  intros w c.
  assert (pop_inv w) as Hinv.
  { exact (uniform_world_pop_inv 0%nat 2 1%float 0%float 1%float [0%nat; 1%nat; 2%nat] 5
             ltac:(lia) ltac:(compute_done)). }
  assert (c ∈ members (population w)) as Hc by compute_done.
  split; [exact Hinv|]. split; [exact Hc|].
  exact (delete_removes_one_micro w c Hinv Hc).
Defined.

Lemma absent_classifier_raises_witness :
  let w := uniform_world 0%nat 2 1%float 0%float 1%float [0%nat; 1%nat; 2%nat] 6 5 in
  let c := 7%nat in
  (c ∉ members (population w)) ∧
  (∀ n label, duplicate c n label w = Raise MemberNotFoundError w) ∧
  delete c w = Raise MemberNotFoundError w ∧
  (∀ label, remove c label w = Raise MemberNotFoundError w) ∧
  (∀ other label, replace c other label w = Raise MemberNotFoundError w) ∧
  (∀ other label, replace other c label w = Raise MemberNotFoundError w).
Proof.
  intros w c.
  assert (c ∉ members (population w)) as Hc by compute_done.
  split; [exact Hc|]. exact (absent_classifier_raises w c Hc).
Defined.

Lemma insert_absorbs_into_first_witness :
  let w := mkWorld (λ o, mkClassifier (o mod 2)%nat 2 1%float 0%float 1%float)
             (mkPopulation [0%nat; 1%nat; 2%nat; 3%nat] 8 10 ∅) 0 in
  let c := 5%nat in
  let m := 1%nat in
  let l1 := [0%nat] in
  let l2 := [2%nat; 3%nat] in
  let label := Some "discovery"%string in
  members (population w) = l1 ++ m :: l2 ∧
  (∀ x, x ∈ l1 → rule (heap w x) ≠ rule (heap w c)) ∧
  rule (heap w m) = rule (heap w c) ∧
  1 ≤ numerosity (heap w c) ∧
  ∃ w',
    insert c label w = Ok tt w' ∧
    members (population w') = members (population w) ∧
    numerosity (heap w' m) = numerosity (heap w m) + numerosity (heap w c) ∧
    rule (heap w' m) = rule (heap w m) ∧
    fitness (heap w' m) = fitness (heap w m) ∧
    experience (heap w' m) = experience (heap w m) ∧
    action_set_size (heap w' m) = action_set_size (heap w m) ∧
    ∀ x, x ≠ m → heap w' x = heap w x.
Proof.
  intros w c m l1 l2 label.
  assert (members (population w) = l1 ++ m :: l2) as Hms by reflexivity.
  assert (∀ x, x ∈ l1 → rule (heap w x) ≠ rule (heap w c)) as Hl1.
  { intros x Hx%list_elem_of_singleton. subst x. by vm_compute. }
  assert (rule (heap w m) = rule (heap w c)) as Hm by reflexivity.
  assert (1 ≤ numerosity (heap w c)) as Hn by by vm_compute.
  split; [exact Hms|]. split; [exact Hl1|]. split; [exact Hm|]. split; [exact Hn|].
  exact (insert_absorbs_into_first w c m l1 l2 label Hms Hl1 Hm Hn).
Defined.

(** C8 as the spec words it fails: a float that is not a positive integer
    is truncated by [int] and accepted, and [max_micros] is not the value
    supplied. *)
Lemma float_max_micros_is_accepted :
  ¬ is_positive_integer (PyFloat (5 # 2)) ∧
  __init__ (PyFloat (5 # 2)) = inr (mkPopulation [] 0 2 ∅) ∧
  __init__ PyNone = inl TypeError.
Proof. split; [intros H; exact H|]. split; reflexivity. Qed.



(** The same classifier on Python floats: both tests pass, the quotient
    is 20 and the vote is 40, the base vote being 2. *)
Example inflated_vote_on_floats :
  let w := uniform_world 0%nat 2 1%float 21%float 1%float [0%nat] 2 5 in
  _calc_deletion_vote 20%float 0x1.999999999999ap-4%float 0%nat 10%float w
    = Ok 40%float w.
Proof. reflexivity. Qed.



(** Rounding decides who is selected.  On Python floats the votes 0.1,
    0.2 and 0.3 add up to 0.6000000000000001, and with the draw 0.5 the
    choice point is 0.30000000000000004; the second running sum is
    0.30000000000000004 as well and does not exceed it, so the third
    member is selected.  With sums and products of the same three numbers
    taken without rounding, the second member would be. *)
Example rounded_sums_decide_the_selection :
  let heap0 := λ o : oid,
    mkClassifier o 1 1%float 0%float
      (nth o [0x1.999999999999ap-4; 0x1.999999999999ap-3; 0x1.3333333333333p-2]
         0)%float in
  let w := mkWorld heap0 (mkPopulation [0%nat; 1%nat; 2%nat] 3 2 ∅) 0 in
  let rand := λ _ : nat, 0.5%float in
  let exact_votes :=
    [3602879701896397 # 36028797018963968;
     3602879701896397 # 18014398509481984;
     5404319552844595 # 18014398509481984]%Q in
  XCSRouletteWheelDeletion_select_for_deletion 20%float
    0x1.999999999999ap-4%float rand mean_fitness w
  = Ok (Some 2%nat) (mkWorld (heap w) (population w) 1) ∧
  roulette_scan (zip [0%nat; 1%nat; 2%nat] exact_votes) 0%Q
    ((1 # 2) * py_sum exact_votes)%Q = Some 1%nat.
Proof. split; reflexivity. Qed.

(** C2 as the spec words it fails: on a population over capacity whose
    votes are all 0, the policy with the roulette wheel on Python floats
    raises [MemberNotFoundError] in its first round and the population
    stays over capacity. *)
Lemma zero_votes_policy_raises :
  let w := uniform_world 0%nat 2 1%float 0%float 0%float [0%nat] 2 1 in
  let rand := λ _ : nat, 0.5%float in
  pop_inv w ∧
  max_micros (population w) < num_micros (population w) ∧
  __call__ (H := XCSRouletteWheelDeletion 20%float 0x1.999999999999ap-4%float
                   rand mean_fitness) w
    = Raise MemberNotFoundError (mkWorld (heap w) (population w) 1).
Proof.
  intros w rand. split.
  - exact (uniform_world_pop_inv 0%nat 2 1%float 0%float 0%float [0%nat] 1
             ltac:(lia) ltac:(compute_done)).
  - split; [by vm_compute|reflexivity].
Qed.

Lemma deletion_policy_enforces_capacity_witness :
  let w := uniform_world 0%nat 2 1%float 0%float 1%float [0%nat; 1%nat; 2%nat] 6 5 in
  let rand := λ _ : nat, 0.5%float in
  let strategy :=
    XCSRouletteWheelDeletion 20%float 0x1.999999999999ap-4%float rand
      mean_fitness in
  let ready := λ w' : World,
    max_micros (population w') < num_micros (population w') → w' = w in
  (∀ w, pop_inv w → ready w →
     max_micros (population w) < num_micros (population w) →
     ∃ c w1,
       _select_for_deletion (DeletionStrategyABC := strategy) w = Ok (Some c) w1 ∧
       c ∈ members (population w) ∧
       heap w1 = heap w ∧ population w1 = population w ∧
       ∀ w2, delete c w1 = Ok tt w2 → ready w2) ∧
  pop_inv w ∧ ready w ∧
  max_micros (population w) < num_micros (population w) ∧
  ∃ w',
    __call__ (H := strategy) w = Ok tt w' ∧
    deletion_rounds (H := strategy)
      (Z.to_nat (num_micros (population w) - max_micros (population w))) w
      = Ok tt w' ∧
    num_micros (population w') = max_micros (population w') ∧
    max_micros (population w') = max_micros (population w) ∧
    recorder_get (operations_record (population w')) "deletion" =
      recorder_get (operations_record (population w)) "deletion"
      + (num_micros (population w) - max_micros (population w)).
Proof.
  intros w rand strategy ready.
  assert (pop_inv w) as Hinv.
  { exact (uniform_world_pop_inv 0%nat 2 1%float 0%float 1%float
             [0%nat; 1%nat; 2%nat] 5 ltac:(lia) ltac:(compute_done)). }
  assert (ready w) as Hready by (intros _; reflexivity).
  assert (max_micros (population w) < num_micros (population w)) as Hover
    by by vm_compute.
  assert (∀ w0, pop_inv w0 → ready w0 →
            max_micros (population w0) < num_micros (population w0) →
            ∃ c w1,
              _select_for_deletion (DeletionStrategyABC := strategy) w0
                = Ok (Some c) w1 ∧
              c ∈ members (population w0) ∧
              heap w1 = heap w0 ∧ population w1 = population w0 ∧
              ∀ w2, delete c w1 = Ok tt w2 → ready w2) as Hcontract.
  { intros w0 Hinv0 Hready0 Hover0. rewrite (Hready0 Hover0). clear w0 Hinv0 Hready0 Hover0.
    exists 1%nat, (mkWorld (heap w) (population w) 1).
    split; [reflexivity|]. split; [compute_done|].
    split; [reflexivity|]. split; [reflexivity|].
    intros w2 Hdel.
    destruct (delete_effects 1%nat (mkWorld (heap w) (population w) 1))
      as (w2' & Hdel' & _ & Hnm & Hmm & _);
      [by apply (pop_inv_ext w)|compute_done|].
    rewrite Hdel' in Hdel. injection Hdel as <-.
    intros Hover2. rewrite Hnm, Hmm in Hover2. simpl in Hover2. lia. }
  split; [exact Hcontract|]. split; [exact Hinv|]. split; [exact Hready|].
  split; [exact Hover|].
  exact (proj2 (deletion_policy_enforces_capacity (strategy := strategy))
           ready Hcontract w Hinv Hready Hover).
Defined.

(** The scenario of the spec: [max_micros = 5] and three members of
    numerosity 2.  With the draw 0.5 the votes are 2, 2, 2, the choice
    point is 3, and the one round takes a copy from the second member. *)
Example three_members_one_deletion :
  let w := uniform_world 0%nat 2 1%float 0%float 1%float [0%nat; 1%nat; 2%nat] 6 5 in
  match __call__ (H := XCSRouletteWheelDeletion 20%float
                         0x1.999999999999ap-4%float (λ _, 0.5%float)
                         mean_fitness) w with
  | Ok _ w' =>
      num_micros (population w') = 5 ∧
      members (population w') = [0%nat; 1%nat; 2%nat] ∧
      map (λ c, numerosity (heap w' c)) [0%nat; 1%nat; 2%nat] = [2; 1; 2] ∧
      recorder_get (operations_record (population w')) "deletion" = 1 ∧
      rng_calls w' = 1%nat
  | Raise _ _ => False
  end.
Proof. by vm_compute. Qed.

(** Why the numerosity of an inserted classifier has to be at least 1: with
    numerosity 0 and a rule that is present, the assertion of
    [_atomic_copy_existing] fails. *)
Example insert_of_empty_classifier_raises :
  let w := uniform_world 0%nat 0 1%float 0%float 1%float [0%nat] 0 5 in
  insert 1%nat None w = Raise AssertionError w.
Proof. reflexivity. Qed.

(** * The further properties at concrete inputs *)

Lemma duplicate_adds_copies_witness :
  let w := uniform_world 0%nat 2 1%float 0%float 1%float [0%nat; 1%nat; 2%nat] 6 5 in
  let c := 1%nat in
  let n := 3 in
  let label := Some "discovery"%string in
  c ∈ members (population w) ∧
  ((1 ≤ n →
    ∃ w',
      duplicate c n label w = Ok tt w' ∧
      numerosity (heap w' c) = numerosity (heap w c) + n ∧
      rule (heap w' c) = rule (heap w c) ∧
      fitness (heap w' c) = fitness (heap w c) ∧
      experience (heap w' c) = experience (heap w c) ∧
      action_set_size (heap w' c) = action_set_size (heap w c) ∧
      (∀ x, x ≠ c → heap w' x = heap w x) ∧
      members (population w') = members (population w) ∧
      num_micros (population w') = num_micros (population w) + n ∧
      operations_record (population w')
        = recorded label n (operations_record (population w))) ∧
   (n < 1 → duplicate c n label w = Raise AssertionError w)).
Proof.
  intros w c n label.
  assert (c ∈ members (population w)) as Hc by compute_done.
  split; [exact Hc|]. exact (duplicate_adds_copies w c n label Hc).
Defined.

Lemma remove_takes_out_the_macro_witness :
  let w := uniform_world 0%nat 2 1%float 0%float 1%float [0%nat; 1%nat; 2%nat] 6 5 in
  let c := 1%nat in
  let label := Some "ga_subsumption"%string in
  pop_inv w ∧ c ∈ members (population w) ∧
  ∃ w',
    remove c label w = Ok tt w' ∧
    (c ∉ members (population w')) ∧
    (∀ x, x ≠ c → x ∈ members (population w') ↔ x ∈ members (population w)) ∧
    S (num_macros w') = num_macros w ∧
    num_micros (population w') = num_micros (population w) - numerosity (heap w c) ∧
    heap w' = heap w ∧
    operations_record (population w')
      = recorded label (numerosity (heap w c)) (operations_record (population w)).
Proof.
  intros w c label.
  assert (pop_inv w) as Hinv.
  { exact (uniform_world_pop_inv 0%nat 2 1%float 0%float 1%float [0%nat; 1%nat; 2%nat] 5
             ltac:(lia) ltac:(compute_done)). }
  assert (c ∈ members (population w)) as Hc by compute_done.
  split; [exact Hinv|]. split; [exact Hc|].
  exact (remove_takes_out_the_macro w c label Hinv Hc).
Defined.

Lemma add_then_remove_restores_witness :
  let w := uniform_world 0%nat 2 1%float 0%float 1%float [0%nat; 1%nat] 4 5 in
  let c := 2%nat in
  let l1 := Some "covering"%string in
  let l2 : option string := None in
  (c ∉ members (population w)) ∧ 0 ≤ num_micros (population w) ∧
  ∃ w1 w2,
    add c l1 w = Ok tt w1 ∧ remove c l2 w1 = Ok tt w2 ∧
    heap w2 = heap w ∧
    members (population w2) = members (population w) ∧
    num_micros (population w2) = num_micros (population w) ∧
    max_micros (population w2) = max_micros (population w).
Proof.
  intros w c l1 l2.
  assert (c ∉ members (population w)) as Hc by compute_done.
  assert (0 ≤ num_micros (population w)) as Hnm by by vm_compute.
  split; [exact Hc|]. split; [exact Hnm|].
  exact (add_then_remove_restores w c l1 l2 Hc Hnm).
Defined.

Lemma duplicate_then_delete_restores_witness :
  let w := uniform_world 0%nat 2 1%float 0%float 1%float [0%nat; 1%nat] 4 5 in
  let c := 0%nat in
  let label : option string := None in
  c ∈ members (population w) ∧ 1 ≤ numerosity (heap w c) ∧
  0 ≤ num_micros (population w) ∧
  ∃ w1 w2,
    duplicate c 1 label w = Ok tt w1 ∧ delete c w1 = Ok tt w2 ∧
    numerosity (heap w1 c) = numerosity (heap w c) + 1 ∧
    num_micros (population w1) = num_micros (population w) + 1 ∧
    (∀ x, heap w2 x = heap w x) ∧
    members (population w2) = members (population w) ∧
    num_micros (population w2) = num_micros (population w).
Proof.
  intros w c label.
  assert (c ∈ members (population w)) as Hc by compute_done.
  assert (1 ≤ numerosity (heap w c)) as Hn by by vm_compute.
  assert (0 ≤ num_micros (population w)) as Hnm by by vm_compute.
  split; [exact Hc|]. split; [exact Hn|]. split; [exact Hnm|].
  exact (duplicate_then_delete_restores w c label Hc Hn Hnm).
Defined.

Lemma insert_keeps_rules_distinct_witness :
  let w := mkWorld (λ o, mkClassifier o 1 1%float 0%float 1%float)
             (mkPopulation [0%nat; 1%nat; 2%nat] 3 10 ∅) 0 in
  let c := 5%nat in
  let label := Some "covering"%string in
  NoDup ((λ m, rule (heap w m)) <$> members (population w)) ∧
  (let w' := final_world (insert c label w) in
   NoDup ((λ m, rule (heap w' m)) <$> members (population w'))).
Proof.
  intros w c label.
  assert (NoDup ((λ m, rule (heap w m)) <$> members (population w))) as Hnd
    by compute_done.
  split; [exact Hnd|]. exact (insert_keeps_rules_distinct w c label Hnd).
Defined.

Lemma two_steps_reachable :
  reachable exact_pre
    (final_world (run_op (OpInsert 1%nat None)
       (final_world (run_op (OpAdd 0%nat None)
          (uniform_world 0%nat 1 1%float 0%float 1%float [] 0 5))))).
Proof.
  apply reachable_step; [apply reachable_step|].
  - apply (reachable_init _ _ (PyInt 5)). reflexivity.
  - split; [compute_done|simpl; lia].
  - simpl. lia.
Qed.

Lemma reachable_population_is_well_formed_witness :
  let w := final_world (run_op (OpInsert 1%nat None)
             (final_world (run_op (OpAdd 0%nat None)
                (uniform_world 0%nat 1 1%float 0%float 1%float [] 0 5)))) in
  reachable exact_pre w ∧
  (∀ c, c ∈ members (population w) → 1 ≤ numerosity (heap w c)) ∧
  NoDup (members (population w)) ∧
  0 ≤ num_micros (population w) ∧
  0 < max_micros (population w).
Proof.
  intros w. split; [exact two_steps_reachable|].
  exact (reachable_population_is_well_formed w two_steps_reachable).
Defined.

Lemma operations_return_when_preconditions_hold_witness :
  let w := final_world (run_op (OpInsert 1%nat None)
             (final_world (run_op (OpAdd 0%nat None)
                (uniform_world 0%nat 1 1%float 0%float 1%float [] 0 5)))) in
  let op := OpDuplicate 0%nat 2 (Some "discovery"%string) in
  reachable exact_pre w ∧ exact_pre op w ∧
  ∃ w', run_op op w = Ok tt w'.
Proof.
  intros w op.
  assert (exact_pre op w) as Hpre.
  { cbv beta iota zeta delta [exact_pre op]. split; [compute_done|lia]. }
  split; [exact two_steps_reachable|]. split; [exact Hpre|].
  exact (operations_return_when_preconditions_hold w op two_steps_reachable Hpre).
Defined.

Lemma roulette_policy_keeps_invariants_witness :
  let w := uniform_world 0%nat 3 1%float 0%float 1%float [0%nat; 1%nat] 6 4 in
  let theta_del := 20%float in
  let delta := 0x1.999999999999ap-4%float in
  let rand := λ k : nat, (if Nat.even k then 0.25 else 0.75)%float in
  let r := __call__ (H := XCSRouletteWheelDeletion theta_del delta rand
                            mean_fitness) w in
  let w' := final_world r in
  pop_inv w ∧
  max_micros (population w) < num_micros (population w) ∧
  pop_inv w' ∧
  max_micros (population w') = max_micros (population w) ∧
  num_micros (population w') ≤ num_micros (population w) ∧
  recorder_get (operations_record (population w')) "deletion" =
    recorder_get (operations_record (population w)) "deletion"
    + (num_micros (population w) - num_micros (population w')) ∧
  match r with
  | Ok _ _ => num_micros (population w') = max_micros (population w')
  | Raise _ _ => max_micros (population w') < num_micros (population w')
  end.
Proof.
  intros w theta_del delta rand r w'.
  assert (pop_inv w) as Hinv.
  { exact (uniform_world_pop_inv 0%nat 3 1%float 0%float 1%float [0%nat; 1%nat] 4
             ltac:(lia) ltac:(compute_done)). }
  assert (max_micros (population w) < num_micros (population w)) as Hover
    by by vm_compute.
  split; [exact Hinv|]. split; [exact Hover|].
  exact (roulette_policy_keeps_invariants theta_del delta rand mean_fitness w
           Hinv Hover).
Defined.

(** The two rounds of that call: the draws 0.25 and 0.75 take a copy from
    the first member and then from the second. *)
Example two_rounds_of_the_roulette :
  let w := uniform_world 0%nat 3 1%float 0%float 1%float [0%nat; 1%nat] 6 4 in
  let rand := λ k : nat, (if Nat.even k then 0.25 else 0.75)%float in
  match __call__ (H := XCSRouletteWheelDeletion 20%float
                         0x1.999999999999ap-4%float rand mean_fitness) w with
  | Ok _ w' =>
      num_micros (population w') = 4 ∧
      map (λ c, numerosity (heap w' c)) [0%nat; 1%nat] = [2; 2] ∧
      rng_calls w' = 2%nat
  | Raise _ _ => False
  end.
Proof. by vm_compute. Qed.



Lemma genotype_setitem_then_getitem_witness :
  let g := mkGenotype [Discrete 1; Discrete 0; Floating 0.5%float] in
  let idx := -1 in
  let value := Discrete 7 in
  - Z.of_nat (__len__ g) ≤ idx < Z.of_nat (__len__ g) ∧
  ∃ g',
    __setitem__ g idx value = inr g' ∧
    __getitem__ g' idx = inr value ∧
    __len__ g' = __len__ g ∧
    ∀ j, py_index (__len__ g) j ≠ py_index (__len__ g) idx →
         __getitem__ g' j = __getitem__ g j.
Proof.
  intros g idx value.
  assert (- Z.of_nat (__len__ g) ≤ idx < Z.of_nat (__len__ g)) as Hr
    by (split; by vm_compute).
  split; [exact Hr|]. exact (genotype_setitem_then_getitem g idx value Hr).
Defined.

